(** * Memoized: deep equality, single-slot cache cells and the clear registry

    A shallow embedding of the TypeScript module that exports [deepEqual],
    [createMemoizedMethod], [clearAllMemoized] and the [memoized] decorator,
    together with the properties of the caching core. *)

From Stdlib Require Import ZArith Bool List String Lia.
From Stdlib Require Import Floats.SpecFloat.
From stdpp Require Import gmap strings.

(** ** JavaScript values

    Primitives are compared by value, objects by reference: every object
    carries the address it lives at.  Numbers are IEEE-754 doubles in the
    Standard Library's [spec_float] representation, so that [NaN] and the two
    zeros are part of the model. *)

Definition ref := nat.
Definition methodId := nat.

Inductive Value : Type :=
| VUndefined
| VNull
| VBoolean (b : bool)
| VNumber (x : spec_float)
| VString (s : string)
| VBigInt (z : Z)
| VSymbol (id : nat)
| VObject (addr : ref) (equalsFn : option methodId) (shape : Shape)
with Shape : Type :=
| SDate (time : spec_float)
| SRegExp (text : string)
| SArray (items : list Value)
| SMap (entries : list (Value * Value))
| SSet (members : list Value)
| SPlain (fields : list (string * Value))
| SOther (callable : bool) (fields : list (string * Value)).

(** [VObject addr equalsFn shape]: [equalsFn] is the function the property
    read [a.equals] resolves to (own or inherited), when it is one.  The shape
    records what the run-time tests of [deepEqual] can observe:
    - [SDate], [SRegExp], [SMap], [SSet]: what [instanceof] answers, with the
      epoch time, the [toString()] text, the entries and the members;
    - [SArray]: [Array.isArray]; arrays are dense;
    - [SPlain]: not an array and [Object.getPrototypeOf] is
      [Object.prototype]; the fields are the own enumerable string keys in
      [Object.keys] order, all of them data properties;
    - [SOther]: every other object (class instances, functions, objects
      without prototype); [callable] objects have [typeof] ["function"]. *)

(** The outcome of running JavaScript code: a value, or a thrown value. *)
Inductive Completion (A : Type) : Type :=
| Normal (a : A)
| Throw (e : Value).
Arguments Normal {A} a.
Arguments Throw {A} e.

Inductive TypeTag :=
| TUndefined | TObject | TBoolean | TNumber | TString | TBigInt | TSymbol
| TFunction.

Definition typeTag_eqb (s t : TypeTag) : bool :=
  match s, t with
  | TUndefined, TUndefined | TObject, TObject | TBoolean, TBoolean
  | TNumber, TNumber | TString, TString | TBigInt, TBigInt
  | TSymbol, TSymbol | TFunction, TFunction => true
  | _, _ => false
  end.

(** [typeof v] *)
Definition typeOf (v : Value) : TypeTag :=
  match v with
  | VUndefined => TUndefined
  | VNull => TObject
  | VBoolean _ => TBoolean
  | VNumber _ => TNumber
  | VString _ => TString
  | VBigInt _ => TBigInt
  | VSymbol _ => TSymbol
  | VObject _ _ (SOther true _) => TFunction
  | VObject _ _ _ => TObject
  end.

(** [a === b]: IEEE equality on numbers, identity on objects. *)
Definition strictEquals (a b : Value) : bool :=
  match a, b with
  | VUndefined, VUndefined => true
  | VNull, VNull => true
  | VBoolean x, VBoolean y => Bool.eqb x y
  | VNumber x, VNumber y => SFeqb x y
  | VString x, VString y => String.eqb x y
  | VBigInt x, VBigInt y => Z.eqb x y
  | VSymbol x, VSymbol y => Nat.eqb x y
  | VObject r _ _, VObject r' _ _ => Nat.eqb r r'
  | _, _ => false
  end.

(** SameValueZero, the key comparison of [Map.prototype.has] and [get]:
    as [===], except that [NaN] is the same as [NaN]. *)
Definition sameValueZero (a b : Value) : bool :=
  match a, b with
  | VNumber S754_nan, VNumber S754_nan => true
  | _, _ => strictEquals a b
  end.

(** [v == null] *)
Definition isNullish (v : Value) : bool :=
  match v with
  | VUndefined | VNull => true
  | _ => false
  end.

(** ToBoolean *)
Definition truthy (v : Value) : bool :=
  match v with
  | VUndefined | VNull => false
  | VBoolean b => b
  | VNumber (S754_zero _) | VNumber S754_nan => false
  | VNumber _ => true
  | VString s => negb (String.eqb s EmptyString)
  | VBigInt z => negb (Z.eqb z 0%Z)
  | VSymbol _ => true
  | VObject _ _ _ => true
  end.

Definition asDate (v : Value) : option spec_float :=
  match v with VObject _ _ (SDate t) => Some t | _ => None end.

Definition asRegExp (v : Value) : option string :=
  match v with VObject _ _ (SRegExp s) => Some s | _ => None end.

Definition asArray (v : Value) : option (list Value) :=
  match v with VObject _ _ (SArray l) => Some l | _ => None end.

Definition asMap (v : Value) : option (list (Value * Value)) :=
  match v with VObject _ _ (SMap l) => Some l | _ => None end.

Definition asSet (v : Value) : option (list Value) :=
  match v with VObject _ _ (SSet l) => Some l | _ => None end.

(** Not an array, and the direct prototype is [Object.prototype]. *)
Definition asPlain (v : Value) : option (list (string * Value)) :=
  match v with VObject _ _ (SPlain l) => Some l | _ => None end.

(** [typeof a.equals === 'function'], with the function found. *)
Definition equalsOf (v : Value) : option methodId :=
  match v with VObject _ m _ => m | _ => None end.

(** [o[key]] on the own data properties; a missing key reads [undefined]. *)
Fixpoint getField (fields : list (string * Value)) (key : string) : Value :=
  match fields with
  | [] => VUndefined
  | (k, v) :: rest => if String.eqb k key then v else getField rest key
  end.

(** [m.has(key)] and [m.get(key)] *)
Fixpoint mapHas (entries : list (Value * Value)) (key : Value) : bool :=
  match entries with
  | [] => false
  | (k, _) :: rest => sameValueZero k key || mapHas rest key
  end.

Fixpoint mapGet (entries : list (Value * Value)) (key : Value) : Value :=
  match entries with
  | [] => VUndefined
  | (k, v) :: rest => if sameValueZero k key then v else mapGet rest key
  end.

(** [item === null || item === undefined ||
     (typeof item !== 'object' && typeof item !== 'function')] *)
Definition isPrimitiveItem (item : Value) : bool :=
  strictEquals item VNull || strictEquals item VUndefined ||
  (negb (typeTag_eqb (typeOf item) TObject) &&
   negb (typeTag_eqb (typeOf item) TFunction)).

(** [xs.every((x, i) => cb(x, i))] and [xs.some(...)], counting the index
    from [i]; a callback that throws ends the loop with its error, and the
    callback's result is used through ToBoolean. *)
Fixpoint everyFrom {A : Type} (cb : A -> nat -> Completion Value)
    (i : nat) (xs : list A) : Completion Value :=
  match xs with
  | [] => Normal (VBoolean true)
  | x :: rest =>
      match cb x i with
      | Throw e => Throw e
      | Normal v =>
          if truthy v then everyFrom cb (S i) rest else Normal (VBoolean false)
      end
  end.

Fixpoint someFrom {A : Type} (cb : A -> nat -> Completion Value)
    (i : nat) (xs : list A) : Completion Value :=
  match xs with
  | [] => Normal (VBoolean false)
  | x :: rest =>
      match cb x i with
      | Throw e => Throw e
      | Normal v =>
          if truthy v then Normal (VBoolean true) else someFrom cb (S i) rest
      end
  end.

Definition every {A : Type} (cb : A -> nat -> Completion Value) :=
  everyFrom cb 0.
Definition some {A : Type} (cb : A -> nat -> Completion Value) :=
  someFrom cb 0.

(** [!c] on a completion *)
Definition notC (c : Completion Value) : Completion Value :=
  match c with
  | Normal v => Normal (VBoolean (negb (truthy v)))
  | Throw e => Throw e
  end.

Definition retBool (b : bool) : Completion Value := Normal (VBoolean b).

(** [for (const x of xs) { if (test(x)) return false; } return true;] *)
Fixpoint forOfReturnFalse {A : Type} (test : A -> Completion Value)
    (xs : list A) : Completion Value :=
  match xs with
  | [] => retBool true
  | x :: rest =>
      match test x with
      | Throw e => Throw e
      | Normal v => if truthy v then retBool false else forOfReturnFalse test rest
      end
  end.

(** ** deepEqual *)

Section DeepEqual.

(** [callEquals m a b] is the call [a.equals(b)] of the user's method [m]:
    user code, which returns any value or throws. *)
Variable callEquals : methodId -> Value -> Value -> Completion Value.

(** The recursion of [deepEqual] is on [depth]; [fuel] only makes it
    structural, and [deepEqual] below supplies enough of it. *)
Fixpoint deepEqualAux (fuel : nat) (a b : Value) (depth : Z)
    : Completion Value :=
  if (depth <=? 0)%Z then retBool false else
  match fuel with
  | O => retBool false
  | S fuel' =>
    if strictEquals a b then retBool true else
    if isNullish a || isNullish b then retBool false else
    let typeA := typeOf a in
    let typeB := typeOf b in
    if negb (typeTag_eqb typeA typeB) then retBool false else
    if negb (typeTag_eqb typeA TObject) && negb (typeTag_eqb typeA TFunction)
    then retBool false else
    match asDate a, asDate b with
    | Some ta, Some tb => retBool (SFeqb ta tb)
    | _, _ =>
    match asRegExp a, asRegExp b with
    | Some sa, Some sb => retBool (String.eqb sa sb)
    | _, _ =>
    if truthy a && truthy b then
      match asArray a, asArray b with
      | Some xs, Some ys =>
          if negb (Nat.eqb (length xs) (length ys)) then retBool false else
          let allPrimitives := forallb isPrimitiveItem xs in
          if allPrimitives then
            every (fun val i => retBool (strictEquals val (nth i ys VUndefined))) xs
          else
            every (fun val i =>
                     deepEqualAux fuel' val (nth i ys VUndefined) (depth - 1)%Z) xs
      | _, _ =>
      match asMap a, asMap b with
      | Some ea, Some eb =>
          if negb (Nat.eqb (length ea) (length eb)) then retBool false else
          forOfReturnFalse
            (fun entry : Value * Value =>
               let (key, val) := entry in
               if negb (mapHas eb key) then retBool true else
               notC (deepEqualAux fuel' val (mapGet eb key) (depth - 1)%Z))
            ea
      | _, _ =>
      match asSet a, asSet b with
      | Some ma, Some mb =>
          if negb (Nat.eqb (length ma) (length mb)) then retBool false else
          forOfReturnFalse
            (fun item =>
               notC (some (fun bItem _ =>
                             deepEqualAux fuel' item bItem (depth - 1)%Z) mb))
            ma
      | _, _ =>
      match asPlain a, asPlain b with
      | Some fa, Some fb =>
          let keysA := map fst fa in
          let keysB := map fst fb in
          if negb (Nat.eqb (length keysA) (length keysB)) then retBool false else
          every (fun key _ =>
                   deepEqualAux fuel' (getField fa key) (getField fb key)
                                (depth - 1)%Z) keysA
      | _, _ =>
      match equalsOf a with
      | Some m => callEquals m a b
      | None => retBool false
      end
      end end end end
    else retBool false
    end end
  end.

Definition deepEqual (a b : Value) (depth : Z) : Completion Value :=
  deepEqualAux (Z.to_nat depth) a b depth.

(** The default of the [depth] parameter. *)
Definition defaultDepth : Z := 100%Z.

End DeepEqual.

(** ** A monad for stateful code that may throw

    A computation reads and writes a state, may throw, and logs every call it
    makes of an underlying (undecorated) method or getter.  The state is kept
    when an error is thrown: assignments made before the throw stay made. *)

Definition objId := nat.

(** [fn.apply(this, args)] of an underlying computation, with its outcome. *)
Record Call := mkCall {
  callThis : objId;
  callArgs : list Value;
  callOutcome : Completion Value
}.

Definition M (St A : Type) : Type := St -> Completion A * St * list Call.

Definition ret {St A : Type} (a : A) : M St A := fun s => (Normal a, s, []).

Definition bind {St A B : Type} (m : M St A) (k : A -> M St B) : M St B :=
  fun s =>
    match m s with
    | (Normal a, s1, log1) =>
        match k a s1 with
        | (r, s2, log2) => (r, s2, log1 ++ log2)
        end
    | (Throw e, s1, log1) => (Throw e, s1, log1)
    end.

Notation "x <- m ;; k" := (bind m (fun x => k))
  (at level 100, m at next level, right associativity).
Notation "m ;;; k" := (bind m (fun _ => k))
  (at level 100, right associativity).

Definition getState {St : Type} : M St St := fun s => (Normal s, s, []).
Definition modify {St : Type} (f : St -> St) : M St unit :=
  fun s => (Normal tt, f s, []).
Definition throw {St A : Type} (e : Value) : M St A := fun s => (Throw e, s, []).

(** A completion computed without touching the state. *)
Definition liftC {St A : Type} (c : Completion A) : M St A := fun s => (c, s, []).

(** The user's methods and getters take [this] and the argument list. *)
Definition Method := objId -> list Value -> Completion Value.

(** [fn.apply(this, args)], logged. *)
Definition apply {St : Type} (fn : Method) (this : objId) (args : list Value)
    : M St Value :=
  fun s => (fn this args, s, [mkCall this args (fn this args)]).

Definition outcome {St A : Type} (r : Completion A * St * list Call) := fst (fst r).
Definition finalState {St A : Type} (r : Completion A * St * list Call) := snd (fst r).
Definition calls {St A : Type} (r : Completion A * St * list Call) := snd r.

(** ** The cache cell of createMemoizedMethod

    The three variables the closures [memoizedFn] and [clearMemo] share. *)

Record Cell := mkCell {
  previousArgs : list Value;
  calledOnce : bool;
  cachedResult : Value
}.

(** [let previousArgs = []; let calledOnce = false; let cachedResult;] *)
Definition newCell : Cell :=
  {| previousArgs := []; calledOnce := false; cachedResult := VUndefined |}.

Definition setPreviousArgs (args : list Value) (c : Cell) : Cell :=
  {| previousArgs := args; calledOnce := calledOnce c;
     cachedResult := cachedResult c |}.
Definition setCachedResult (v : Value) (c : Cell) : Cell :=
  {| previousArgs := previousArgs c; calledOnce := calledOnce c;
     cachedResult := v |}.
Definition setCalledOnce (b : bool) (c : Cell) : Cell :=
  {| previousArgs := previousArgs c; calledOnce := b;
     cachedResult := cachedResult c |}.

Section Cells.

Variable callEquals : methodId -> Value -> Value -> Completion Value.

(** [calledOnce && previousArgs.length === args.length &&
     args.every((arg, i) => deepEqual(arg, previousArgs[i]))] *)
Definition isSame (c : Cell) (args : list Value) : Completion Value :=
  if calledOnce c then
    if Nat.eqb (length (previousArgs c)) (length args) then
      every (fun arg i =>
               deepEqual callEquals arg (nth i (previousArgs c) VUndefined)
                         defaultDepth) args
    else retBool false
  else retBool false.

(** The body of [memoizedFn]; the underlying method does not itself call the
    memoized one. *)
Definition memoizedFn (originalMethod : Method) (this : objId)
    (args : list Value) : M Cell Value :=
  c <- getState ;;
  same <- liftC (isSame c args) ;;
  if truthy same then
    ret (cachedResult c)
  else
    modify (setPreviousArgs args) ;;;
    r <- apply originalMethod this args ;;
    modify (setCachedResult r) ;;;
    modify (setCalledOnce true) ;;;
    c' <- getState ;;
    ret (cachedResult c').

(** The body of [memoizedFn.clearMemo]. *)
Definition clearMemo : M Cell unit :=
  modify (setPreviousArgs []) ;;;
  modify (setCachedResult VUndefined) ;;;
  modify (setCalledOnce false).

End Cells.

(** ** Memoized functions, instances and the clear registry

    The cells live in a heap; a memoized function is the underlying method
    with the address of the cell its closures share, so that the function
    installed on an object and the [clearMemo] kept in the registry act on
    the same cell. *)

Record MemoFn := mkMemoFn {
  original : Method;
  cellAt : nat
}.

(** What a property of an instance holds: a plain value or a memoized
    function. *)
Inductive Property :=
| PValue (v : Value)
| PMemoized (fn : MemoFn).

(** What the [memoized] decorator leaves on the class prototype. *)
Inductive Decorated :=
| ReplacementGetter (target : Method) (name : string)
| ReplacementMethod (fn : MemoFn)
| GetterDescriptor (get : Method) (propertyKey : string)
| MethodDescriptor (value : Method) (propertyKey : string).

(** [__memoizedClearFns]: a JavaScript object used as a map from key to
    [clearMemo] closure, each closure given by the cell it clears; keys keep
    their insertion order, which is the order of [Object.values]. *)
Fixpoint assocSet (key : string) (a : nat) (fns : list (string * nat))
    : list (string * nat) :=
  match fns with
  | [] => [(key, a)]
  | (k, b) :: rest =>
      if String.eqb k key then (k, a) :: rest else (k, b) :: assocSet key a rest
  end.

Fixpoint assocGet (key : string) (fns : list (string * nat)) : option nat :=
  match fns with
  | [] => None
  | (k, b) :: rest => if String.eqb k key then Some b else assocGet key rest
  end.

Record Instance := mkInstance {
  self : objId;
  proto : gmap string Decorated;
  own : gmap string Property;
  memoizedClearFns : option (list (string * nat))
}.

Definition defineProperty (key : string) (p : Property) (i : Instance)
    : Instance :=
  {| self := self i; proto := proto i; own := <[key := p]> (own i);
     memoizedClearFns := memoizedClearFns i |}.

(** [if (!instance.__memoizedClearFns) instance.__memoizedClearFns = {};
     instance.__memoizedClearFns[key] = memoizedFn.clearMemo;] *)
Definition registerClearFn (key : string) (a : nat) (i : Instance)
    : Instance :=
  let fns := match memoizedClearFns i with
             | Some fns => fns
             | None => []
             end in
  {| self := self i; proto := proto i; own := own i;
     memoizedClearFns := Some (assocSet key a fns) |}.

Abbreviation Heap := (gmap nat Cell).

Record World := mkWorld {
  obj : Instance;
  heap : Heap
}.

(** Run a computation on the cell at address [a], or on the heap of a
    world. *)
Definition atCell {A : Type} (a : nat) (m : M Cell A) : M Heap A :=
  fun h =>
    match m (default newCell (h !! a)) with
    | (r, c, log) => (r, <[a := c]> h, log)
    end.

Definition onHeap {A : Type} (m : M Heap A) : M World A :=
  fun w =>
    match m (heap w) with
    | (r, h, log) => (r, {| obj := obj w; heap := h |}, log)
    end.

Definition modifyObj (f : Instance -> Instance) : M World unit :=
  modify (fun w => {| obj := f (obj w); heap := heap w |}).

(** [xs.forEach(x => body(x))] *)
Fixpoint forEach {St A : Type} (body : A -> M St unit) (xs : list A)
    : M St unit :=
  match xs with
  | [] => ret tt
  | x :: rest => body x ;;; forEach body rest
  end.

Definition errorObject (message : string) : Value :=
  VObject 0 None (SOther false [("message"%string, VString message)]).

Section Decorator.

Variable callEquals : methodId -> Value -> Value -> Completion Value.

(** [createMemoizedMethod(originalMethod, key, instance?)]: fresh closure
    variables, the optional registration, and the memoized function.  The
    instance, when given, is returned with its registry updated. *)
Definition createMemoizedMethod (originalMethod : Method) (key : string)
    (instance : option Instance) : M Heap (MemoFn * option Instance) :=
  h <- getState ;;
  let a := fresh (dom h) in
  modify (insert a newCell) ;;;
  let fn := {| original := originalMethod; cellAt := a |} in
  match instance with
  | Some i => ret (fn, Some (registerClearFn key a i))
  | None => ret (fn, None)
  end.

(** Calling a memoized function, and its [clearMemo]. *)
Definition callMemoized (fn : MemoFn) (this : objId) (args : list Value)
    : M Heap Value :=
  atCell (cellAt fn) (memoizedFn callEquals (original fn) this args).

Definition clearMemoAt (a : nat) : M Heap unit := atCell a clearMemo.

(** [clearAllMemoized(instance)] *)
Definition clearAllMemoized (instance : Instance) : M Heap unit :=
  match memoizedClearFns instance with
  | Some fns => forEach clearMemoAt (map snd fns)
  | None => ret tt
  end.

(** The arguments the two decorator protocols pass to [memoized]. *)
Inductive ContextKind := KindGetter | KindMethod | KindOther.

Inductive DescriptorValue :=
| ValueFunction (f : Method)
| ValueOther (v : Value).

Record Descriptor := mkDescriptor {
  descGet : option Method;
  descValue : option DescriptorValue
}.

Inductive DecoratorArgs :=
| Stage3Args (target : Method) (kind : ContextKind) (name : string)
| LegacyArgs (propertyKey : string) (descriptor : Descriptor).

Definition usageError : Value :=
  errorObject "memoized can only be used on methods or getters".

(** [memoized(target, contextOrKey, descriptor?)] *)
Definition memoized (args : DecoratorArgs) : M Heap Decorated :=
  match args with
  | Stage3Args target kind name =>
      match kind with
      | KindGetter => ret (ReplacementGetter target name)
      | KindMethod =>
          r <- createMemoizedMethod target name None ;;
          ret (ReplacementMethod (fst r))
      | KindOther => throw usageError
      end
  | LegacyArgs propertyKey descriptor =>
      match descGet descriptor with
      | Some get => ret (GetterDescriptor get propertyKey)
      | None =>
          match descValue descriptor with
          | Some (ValueFunction value) => ret (MethodDescriptor value propertyKey)
          | _ => throw usageError
          end
      end
  end.

(** The property read [this.key] on an instance of a decorated class: an own
    property first, then the member the decorator left on the prototype. *)
Definition getProperty (key : string) : M World Property :=
  w <- getState ;;
  let this := obj w in
  match own this !! key with
  | Some p => ret p
  | None =>
      match proto this !! key with
      | Some (ReplacementGetter target name)
      | Some (GetterDescriptor target name) =>
          (* memoizedGetter *)
          value <- apply target (self this) [] ;;
          modifyObj (defineProperty name (PValue value)) ;;;
          ret (PValue value)
      | Some (ReplacementMethod fn) => ret (PMemoized fn)
      | Some (MethodDescriptor value propertyKey) =>
          r <- onHeap (createMemoizedMethod value propertyKey (Some this)) ;;
          let fn := fst r in
          modifyObj (fun i => defineProperty propertyKey (PMemoized fn)
                                (default i (snd r))) ;;;
          ret (PMemoized fn)
      | None => ret (PValue VUndefined)
      end
  end.

(** The method call [this.key(...args)]. *)
Definition callMethod (key : string) (args : list Value) : M World Value :=
  p <- getProperty key ;;
  w <- getState ;;
  match p with
  | PMemoized fn => onHeap (callMemoized fn (self (obj w)) args)
  | PValue _ => throw (errorObject "not a function")
  end.

(** [(this.key as any).clearMemo()] *)
Definition callClearMemo (key : string) : M World unit :=
  p <- getProperty key ;;
  match p with
  | PMemoized fn => onHeap (clearMemoAt (cellAt fn))
  | PValue _ => throw (errorObject "not a function")
  end.

(** [clearAllMemoized(this)] *)
Definition callClearAll : M World unit :=
  w <- getState ;;
  onHeap (clearAllMemoized (obj w)).

End Decorator.

(** ** Modelled time-bounded cell *)

(** Modelled from the spec: the time-bounded cache cell of section 4.3
    ([memoizedTTL]); the module that implements it is not among the sources,
    only its tests and examples are.  The argument rule is the one of the
    plain cell (same length and [deepEqual] at every position); a failed
    computation leaves the cell as it was (section 7, c). *)
Record TtlCell := mkTtlCell {
  storedArgs : list Value;
  storedResult : option Value;
  hasRun : bool;
  computedAt : option Z;
  ttlMillis : Z
}.

Section TimeBounded.

Variable callEquals : methodId -> Value -> Value -> Completion Value.

(** Modelled from the spec: [args.length == storedArgs.length] and
    [equal(args[i], storedArgs[i])] at every position. *)
Definition argsEqual (stored args : list Value) : Completion Value :=
  if Nat.eqb (length args) (length stored) then
    every (fun arg i =>
             deepEqual callEquals arg (nth i stored VUndefined) defaultDepth)
          args
  else retBool false.

(** Modelled from the spec: [elapsed < ttlMillis], with
    [elapsed = now - computedAt]. *)
Definition withinTtl (c : TtlCell) (now : Z) : bool :=
  match computedAt c with
  | Some t => (now - t <? ttlMillis c)%Z
  | None => false
  end.

(** Modelled from the spec: the miss path of [invoke]. *)
Definition recompute (compute : Method) (this : objId) (args : list Value)
    (now : Z) : M TtlCell Value :=
  r <- apply compute this args ;;
  modify (fun c => {| storedArgs := args; storedResult := Some r;
                      hasRun := true; computedAt := Some now;
                      ttlMillis := ttlMillis c |}) ;;;
  ret r.

(** Modelled from the spec: [invoke(args)] of the time-bounded cell, called
    at wall-clock time [now].  A hit needs [hasRun], equal arguments and
    [elapsed < ttlMillis]; expiry is args-independent, so the time is tested
    before the arguments are compared. *)
Definition invokeTtl (compute : Method) (this : objId) (args : list Value)
    (now : Z) : M TtlCell Value :=
  c <- getState ;;
  if hasRun c && withinTtl c now then
    same <- liftC (argsEqual (storedArgs c) args) ;;
    if truthy same then
      ret (default VUndefined (storedResult c))
    else recompute compute this args now
  else recompute compute this args now.

(** Modelled from the spec: [invalidate()] of the time-bounded cell. *)
Definition invalidateTtl : M TtlCell unit :=
  modify (fun c => {| storedArgs := []; storedResult := None; hasRun := false;
                      computedAt := None; ttlMillis := ttlMillis c |}).

End TimeBounded.

(** ** Histories of an instance

    What a client does with an instance of a decorated class; an error thrown
    by one action is caught by the client, and the next action runs on the
    state the failed one left. *)

Inductive Action :=
| Read (key : string)
| CallMethod (key : string) (args : list Value)
| ClearMemo (key : string)
| ClearAll.


Section Histories.

Variable callEquals : methodId -> Value -> Value -> Completion Value.

Definition perform (act : Action) : M World unit :=
  match act with
  | Read key => getProperty key ;;; ret tt
  | CallMethod key args => callMethod callEquals key args ;;; ret tt
  | ClearMemo key => callClearMemo key
  | ClearAll => callClearAll
  end.

Fixpoint runActions (acts : list Action) (w : World) : World * list Call :=
  match acts with
  | [] => (w, [])
  | act :: rest =>
      match perform act w with
      | (_, w1, log1) =>
          match runActions rest w1 with
          | (w2, log2) => (w2, log1 ++ log2)
          end
      end
  end.

End Histories.

(** ** Concrete values used in the examples *)

(** An integer as a number, with its absolute value for mantissa and the
    exponent 0; [SFeqb] compares such numbers as the integers. *)
Definition num (z : Z) : Value :=
  VNumber match z with
          | Z0 => S754_zero false
          | Zpos p => S754_finite false p 0
          | Zneg p => S754_finite true p 0
          end.

Definition NaN : Value := VNumber S754_nan.

Definition isNaN (v : Value) : bool :=
  match v with
  | VNumber S754_nan => true
  | _ => false
  end.

(** No object has an [equals] method called. *)
Definition noEquals : methodId -> Value -> Value -> Completion Value :=
  fun _ _ _ => Normal VUndefined.

(** Method 0 throws, method 1 answers a number, every other one answers
    [true]. *)
Definition someEquals : methodId -> Value -> Value -> Completion Value :=
  fun m _ _ =>
    match m with
    | 0 => Throw (errorObject "equals failed")
    | 1 => Normal (num 1)
    | _ => Normal (VBoolean true)
    end.

(** An instance of a user class with the given fields. *)
Definition classInstance (addr : ref) (equalsFn : option methodId)
    (fields : list (string * Value)) : Value :=
  VObject addr equalsFn (SOther false fields).

(** Every [equals] method answers whether its number is even. *)
Definition parityEquals : methodId -> Value -> Value -> Completion Value :=
  fun m _ _ => Normal (VBoolean (Nat.even m)).

Definition isObject (v : Value) : bool :=
  match v with VObject _ _ _ => true | _ => false end.

(** An array, a [Map], a [Set], a [Date] or a [RegExp]. *)
Definition isBuiltin (v : Value) : bool :=
  match v with
  | VObject _ _ (SDate _) | VObject _ _ (SRegExp _) | VObject _ _ (SArray _)
  | VObject _ _ (SMap _) | VObject _ _ (SSet _) => true
  | _ => false
  end.

(** [Object.getPrototypeOf(v) === Object.prototype] *)
Definition hasObjectPrototype (v : Value) : bool :=
  match v with VObject _ _ (SPlain _) => true | _ => false end.

(** Fails on the argument 2, answers 10 on every other one. *)
Definition flaky : Method :=
  fun _ args =>
    if strictEquals (nth 0 args VUndefined) (num 2)
    then Throw (errorObject "failed")
    else Normal (num 10).

(** Answers the number of the object it is called on. *)
Definition whoAmI : Method := fun this _ => Normal (num (Z.of_nat this)).

Definition alwaysFails : Method := fun _ _ => Throw (errorObject "failed").

(** [new C()]: an instance of a class whose prototype holds the decorated
    members [p]; it has no own property and no registry yet. *)
Definition newInstance (id : objId) (p : gmap string Decorated) : Instance :=
  {| self := id; proto := p; own := ∅; memoizedClearFns := None |}.

(** The property name a decorated member defines on the instance. *)
Definition memberName (d : Decorated) : option string :=
  match d with
  | ReplacementGetter _ name | GetterDescriptor _ name
  | MethodDescriptor _ name => Some name
  | ReplacementMethod _ => None
  end.

(** Every member sits on the prototype under the name it was decorated
    with. *)
Definition wfProto (p : gmap string Decorated) : Prop :=
  forall k d name, p !! k = Some d -> memberName d = Some name -> name = k.

(** A memoized getter, from either decorator protocol. *)
Definition isGetter (target : Method) (key : string) (d : Decorated) : Prop :=
  d = GetterDescriptor target key \/ d = ReplacementGetter target key.

(** [instance.__memoizedClearFns?.[key]] *)
Definition registryGet (key : string) (i : Instance) : option nat :=
  match memoizedClearFns i with
  | Some fns => assocGet key fns
  | None => None
  end.

(** The state of an instance agrees with its class: an own memoized function
    comes from the legacy method member of that name and its cell is the one
    registered under that name; an own value comes from a getter; and nothing
    is registered for a name that has no own property. *)
Definition Consistent (i : Instance) : Prop :=
  forall k,
    match own i !! k with
    | Some (PMemoized fn) =>
        registryGet k i = Some (cellAt fn)
        /\ proto i !! k = Some (MethodDescriptor (original fn) k)
    | Some (PValue _) =>
        exists target d, proto i !! k = Some d /\ isGetter target k d
    | None => registryGet k i = None
    end.

(** The prototype of a class with one memoized member ["m"], as the stage 3
    and the legacy protocol leave it. *)
Definition classWith (member : Completion Decorated) : gmap string Decorated :=
  match member with
  | Normal d => {[ "m"%string := d ]}
  | Throw _ => ∅
  end.

(** A class decorated through the legacy protocol: two memoized methods and
    a memoized getter. *)
Definition legacyClass : gmap string Decorated :=
  <[ "m"%string := MethodDescriptor whoAmI "m" ]>
    (<[ "n"%string := MethodDescriptor flaky "n" ]>
       (<[ "g"%string := GetterDescriptor whoAmI "g" ]> ∅)).

(** A comparison holds when it returns a truthy value. *)
Definition holds (c : Completion Value) : Prop :=
  exists v, c = Normal v /\ truthy v = true.

(** A completion that is a boolean. *)
Definition isBoolean (c : Completion Value) : Prop :=
  exists b, c = Normal (VBoolean b).

(** The hit condition of a cell: a call has completed, the argument lists
    have the same length, and [deepEqual] holds at every position. *)
Definition hitCondition (ce : methodId -> Value -> Value -> Completion Value)
    (c : Cell) (args : list Value) : Prop :=
  calledOnce c = true
  /\ length args = length (previousArgs c)
  /\ forall i, i < length args ->
       holds (deepEqual ce (nth i args VUndefined)
                        (nth i (previousArgs c) VUndefined) defaultDepth).

(** ** Histories of one cell

    What the holder of a memoized function does with it: calls, all on the
    same [this], and [clearMemo]. *)

Inductive CellOp :=
| Invoke (args : list Value)
| Clear.

(** The argument lists of the calls of a history, in order. *)
Fixpoint invokedArgs (ops : list CellOp) : list (list Value) :=
  match ops with
  | [] => []
  | Invoke args :: rest => args :: invokedArgs rest
  | Clear :: rest => invokedArgs rest
  end.

(** Running a history on a cell: the outcomes of its calls, the cell at the
    end, and the calls of the underlying method.  An error thrown by a call
    is caught by the caller, and the history goes on. *)
Fixpoint runCell (ce : methodId -> Value -> Value -> Completion Value)
    (originalMethod : Method) (this : objId) (ops : list CellOp) (c : Cell)
    : list (Completion Value) * Cell * list Call :=
  match ops with
  | [] => ([], c, [])
  | Invoke args :: rest =>
      match memoizedFn ce originalMethod this args c with
      | (r, c1, log1) =>
          match runCell ce originalMethod this rest c1 with
          | (rs, c2, log2) => (r :: rs, c2, log1 ++ log2)
          end
      end
  | Clear :: rest =>
      match clearMemo c with
      | (_, c1, _) => runCell ce originalMethod this rest c1
      end
  end.

(** Two argument lists that the cell takes for the same: same length, and
    [deepEqual] holds at every position at the default depth. *)
Definition argsAgree (ce : methodId -> Value -> Value -> Completion Value)
    (stored args : list Value) : Prop :=
  length args = length stored
  /\ forall i, i < length args ->
       holds (deepEqual ce (nth i args VUndefined) (nth i stored VUndefined)
                        defaultDepth).

(** The cells the registry of an instance reaches, in [Object.values]
    order. *)
Definition registeredCells (i : Instance) : list nat :=
  match memoizedClearFns i with
  | Some fns => map snd fns
  | None => []
  end.

(** No memoized function and no registry entry of the instance uses the cell
    at [a]. *)
Definition cellsAvoid (a : nat) (i : Instance) : Prop :=
  (forall k fn, own i !! k = Some (PMemoized fn) -> cellAt fn <> a)
  /\ (forall b, In b (registeredCells i) -> b <> a).

(** The cell at [a] is not the class-level cell of a stage 3 method of the
    class. *)
Definition classAvoids (a : nat) (p : gmap string Decorated) : Prop :=
  forall k fn, p !! k = Some (ReplacementMethod fn) -> cellAt fn <> a.

#[local] Set Warnings "-register-all".

(** Structurally identical data: two values that are the same non-[NaN]
    primitive, or two dates of the same valid time, or two regular
    expressions printing the same, or two arrays, possibly distinct objects,
    with alike items, or two plain objects with the same distinct keys in the
    same order and alike values; [n] bounds the nesting of arrays and
    objects. *)
Inductive Alike : nat -> Value -> Value -> Prop :=
| AlikePrimitive n p :
    isObject p = false -> isNaN p = false -> Alike n p p
| AlikeDate n r m r' m' t :
    t <> S754_nan ->
    Alike n (VObject r m (SDate t)) (VObject r' m' (SDate t))
| AlikeRegExp n r m r' m' s :
    Alike n (VObject r m (SRegExp s)) (VObject r' m' (SRegExp s))
| AlikeArray n r m r' m' xs ys :
    Forall2 (Alike n) xs ys ->
    Alike (S n) (VObject r m (SArray xs)) (VObject r' m' (SArray ys))
| AlikePlain n r m r' m' fa fb :
    NoDup (map fst fa) ->
    map fst fa = map fst fb ->
    Forall2 (Alike n) (map snd fa) (map snd fb) ->
    Alike (S n) (VObject r m (SPlain fa)) (VObject r' m' (SPlain fb)).

(** ** Methods that call back

    The underlying method is user code.  While it runs it can call the
    memoized function it is wrapped in (a recursive method calls
    [this.m(...)]) and that function's [clearMemo], and these calls act on
    the very cell of the call in progress.  A body is given the memoized
    function to call back, and runs on the cell. *)

Definition MethodBody :=
  (list Value -> M Cell Value) -> objId -> list Value -> M Cell Value.

(** The body of a method that only computes. *)
Definition plainBody (originalMethod : Method) : MethodBody :=
  fun _ this args => liftC (originalMethod this args).

(** The body does not call back: it leaves the cell alone and is
    [originalMethod] on its arguments. *)
Definition nonReentrant (body : MethodBody) (originalMethod : Method) : Prop :=
  forall self this args c,
    body self this args c = (originalMethod this args, c, []).

(** [originalMethod.apply(this, args)] of a body: the call is logged with its
    outcome, before the calls the body makes itself. *)
Definition applyBody (running : M Cell Value) (this : objId)
    (args : list Value) : M Cell Value :=
  fun c =>
    match running c with
    | (r, c1, log) => (r, c1, mkCall this args r :: log)
    end.

(** What the engine throws when the call stack is used up. *)
Definition stackOverflow : Value :=
  VObject 0 None (SOther false [("name"%string, VString "RangeError")]).

(** The body of [memoizedFn] around a method that may call back; [stack] is
    the number of nested calls of the memoized function the call stack still
    holds. *)
Fixpoint memoizedFnReentrant
    (ce : methodId -> Value -> Value -> Completion Value)
    (stack : nat) (body : MethodBody) (this : objId) (args : list Value)
    : M Cell Value :=
  match stack with
  | O => throw stackOverflow
  | S stack' =>
      c <- getState ;;
      same <- liftC (isSame ce c args) ;;
      if truthy same then
        ret (cachedResult c)
      else
        modify (setPreviousArgs args) ;;;
        r <- applyBody (body (memoizedFnReentrant ce stack' body this)
                             this args) this args ;;
        modify (setCachedResult r) ;;;
        modify (setCalledOnce true) ;;;
        c' <- getState ;;
        ret (cachedResult c')
  end.

(** Histories of one cell whose method may call back. *)
Fixpoint runCellReentrant
    (ce : methodId -> Value -> Value -> Completion Value)
    (stack : nat) (body : MethodBody) (this : objId) (ops : list CellOp)
    (c : Cell) : list (Completion Value) * Cell * list Call :=
  match ops with
  | [] => ([], c, [])
  | Invoke args :: rest =>
      match memoizedFnReentrant ce stack body this args c with
      | (r, c1, log1) =>
          match runCellReentrant ce stack body this rest c1 with
          | (rs, c2, log2) => (r :: rs, c2, log1 ++ log2)
          end
      end
  | Clear :: rest =>
      match clearMemo c with
      | (_, c1, _) => runCellReentrant ce stack body this rest c1
      end
  end.

(** The integer of a number made by [num]. *)
Definition asInt (v : Value) : Z :=
  match v with
  | VNumber (S754_finite false p Z0) => Zpos p
  | VNumber (S754_finite true p Z0) => Zneg p
  | _ => 0%Z
  end.

(** A recursive method, [fib(n) { return n < 2 ? n :
    this.fib(n - 1) + this.fib(n - 2); }], decorated with [memoized]. *)
Definition fibBody : MethodBody :=
  fun self _ args =>
    let n := nth 0 args VUndefined in
    if (asInt n <? 2)%Z then ret n
    else
      x <- self [num (asInt n - 1)] ;;
      y <- self [num (asInt n - 2)] ;;
      ret (num (asInt x + asInt y)).

(** A method that reads its argument: [m(o) { return o.a; }]. *)
Definition readsFieldA : Method :=
  fun _ args =>
    match asPlain (nth 0 args VUndefined) with
    | Some fields => Normal (getField fields "a")
    | None => Normal VUndefined
    end.

(** ** The call of the decorator

    [memoized(target, contextOrKey, descriptor?)] as the two decorator
    protocols call it.  The target is a function (a stage 3 method, getter,
    setter or class; the constructor, for a legacy static member or a legacy
    class decorator) or not (the prototype, for a legacy instance member;
    [undefined], for a stage 3 field; an object, for a stage 3 accessor).
    The second argument is a stage 3 context object, a legacy property key,
    or missing. *)

Inductive DecoratorTarget :=
| TargetFunction (f : Method)
| TargetOther.

Inductive ContextOrKey :=
| ContextObject (kind : ContextKind) (name : string)
| PropertyKey (key : string)
| ContextMissing.

(** The error of reading a property of [undefined], or of destructuring
    it. *)
Definition typeError : Value :=
  VObject 0 None (SOther false [("name"%string, VString "TypeError")]).

(** [contextOrKey as string], as a property key. *)
Definition keyOf (contextOrKey : ContextOrKey) : string :=
  match contextOrKey with
  | PropertyKey key => key
  | ContextObject _ _ => "[object Object]"
  | ContextMissing => "undefined"
  end.

(** The dispatch of [memoized] on [typeof target === 'function']: a function
    target is handled as a stage 3 decoration, where [context.kind] of a key
    string is [undefined] and that of a missing context is an error; any
    other target is handled as a legacy decoration, whose descriptor is
    destructured first. *)
Definition memoizedCall (target : DecoratorTarget)
    (contextOrKey : ContextOrKey) (descriptor : option Descriptor)
    : M Heap Decorated :=
  match target with
  | TargetFunction f =>
      match contextOrKey with
      | ContextObject kind name => memoized (Stage3Args f kind name)
      | PropertyKey _ => throw usageError
      | ContextMissing => throw typeError
      end
  | TargetOther =>
      match descriptor with
      | None => throw typeError
      | Some d => memoized (LegacyArgs (keyOf contextOrKey) d)
      end
  end.

(** The calls that end with the usage error. *)
Definition endsWithUsageError (target : DecoratorTarget)
    (contextOrKey : ContextOrKey) (descriptor : option Descriptor) : bool :=
  match target, contextOrKey, descriptor with
  | TargetFunction _, ContextObject KindOther _, _ => true
  | TargetFunction _, PropertyKey _, _ => true
  | TargetOther, _, Some d =>
      match descGet d, descValue d with
      | Some _, _ => false
      | None, Some (ValueFunction _) => false
      | None, _ => true
      end
  | _, _, _ => false
  end.

(** The calls that end with a [TypeError]. *)
Definition endsWithTypeError (target : DecoratorTarget)
    (contextOrKey : ContextOrKey) (descriptor : option Descriptor) : bool :=
  match target, contextOrKey, descriptor with
  | TargetFunction _, ContextMissing, _ => true
  | TargetOther, _, None => true
  | _, _, _ => false
  end.

(** * Properties of deepEqual *)

Lemma SFeqb_refl (x : spec_float) : x <> S754_nan -> SFeqb x x = true.
Proof.
  intros Hx. unfold SFeqb. destruct x as [s|s| |s m e]; simpl.
  - reflexivity.
  - destruct s; reflexivity.
  - congruence.
  - rewrite Z.compare_refl, Pos.compare_cont_refl. destruct s; reflexivity.
Qed.

Lemma strictEquals_refl (x : Value) : isNaN x = false -> strictEquals x x = true.
Proof.
  destruct x as [| |b|f|s|z|id|r m sh]; simpl; intros H; try reflexivity.
  - destruct b; reflexivity.
  - apply SFeqb_refl. intros ->. discriminate.
  - apply String.eqb_refl.
  - apply Z.eqb_refl.
  - apply Nat.eqb_refl.
  - apply Nat.eqb_refl.
Qed.


Lemma someFrom_ext {A : Type} (f g : A -> nat -> Completion Value) xs :
  forall i, (forall x j, f x j = g x j) -> someFrom f i xs = someFrom g i xs.
Proof.
  induction xs as [|x rest IH]; intros i Hfg; simpl; [reflexivity|].
  rewrite Hfg. destruct (g x i) as [v|e]; [|reflexivity].
  destruct (truthy v); [reflexivity | apply IH, Hfg].
Qed.


(** When the callback never throws, the loops answer a boolean. *)
Lemma everyFrom_boolean {A : Type} (f : A -> nat -> Completion Value) xs :
  forall i, (forall x j, exists v, f x j = Normal v) -> isBoolean (everyFrom f i xs).
Proof.
  induction xs as [|x rest IH]; intros i Hf; simpl.
  - exists true. reflexivity.
  - destruct (Hf x i) as [v ->]. destruct (truthy v).
    + apply IH, Hf.
    + exists false. reflexivity.
Qed.

Lemma someFrom_boolean {A : Type} (f : A -> nat -> Completion Value) xs :
  forall i, (forall x j, exists v, f x j = Normal v) -> isBoolean (someFrom f i xs).
Proof.
  induction xs as [|x rest IH]; intros i Hf; simpl.
  - exists false. reflexivity.
  - destruct (Hf x i) as [v ->]. destruct (truthy v).
    + exists true. reflexivity.
    + apply IH, Hf.
Qed.

Lemma forOfReturnFalse_boolean {A : Type} (f : A -> Completion Value) xs :
  (forall x, exists v, f x = Normal v) -> isBoolean (forOfReturnFalse f xs).
Proof.
  intros Hf. induction xs as [|x rest IH]; simpl.
  - exists true. reflexivity.
  - destruct (Hf x) as [v ->]. destruct (truthy v).
    + exists false. reflexivity.
    + apply IH.
Qed.

Lemma isBoolean_returns (c : Completion Value) :
  isBoolean c -> exists v, c = Normal v.
Proof. intros [b ->]. eauto. Qed.

Lemma isBoolean_retBool (b : bool) : isBoolean (retBool b).
Proof. exists b. reflexivity. Qed.

Lemma notC_boolean (c : Completion Value) :
  (exists v, c = Normal v) -> isBoolean (notC c).
Proof. intros [v ->]. simpl. eexists. reflexivity. Qed.

Create HintDb deq.
#[local] Hint Resolve isBoolean_retBool isBoolean_returns notC_boolean : deq.

Section DeepEqualFacts.

Variable callEquals : methodId -> Value -> Value -> Completion Value.

(** The depth guard: nothing is compared once the depth is used up. *)
Lemma deepEqual_depth_exhausted (a b : Value) (depth : Z) :
  (depth <= 0)%Z -> deepEqual callEquals a b depth = retBool false.
Proof.
  intros Hd. unfold deepEqual.
  replace (Z.to_nat depth) with 0 by lia. simpl.
  destruct (depth <=? 0)%Z; reflexivity.
Qed.


(** With [equals] methods that answer booleans, so does [deepEqual]. *)
Lemma deepEqualAux_boolean (fuel : nat) :
  (forall m x y, isBoolean (callEquals m x y)) ->
  forall a b depth, isBoolean (deepEqualAux callEquals fuel a b depth).
Proof.
  intros Heq. induction fuel as [|f IH]; intros a b depth; simpl.
  - destruct (depth <=? 0)%Z; auto with deq.
  - destruct (depth <=? 0)%Z; [auto with deq|].
    destruct (strictEquals a b); [auto with deq|].
    destruct (isNullish a || isNullish b); [auto with deq|].
    destruct (negb (typeTag_eqb (typeOf a) (typeOf b))); [auto with deq|].
    destruct (negb (typeTag_eqb (typeOf a) TObject) &&
              negb (typeTag_eqb (typeOf a) TFunction)); [auto with deq|].
    destruct (asDate a), (asDate b), (asRegExp a), (asRegExp b);
      auto with deq;
      (destruct (truthy a && truthy b); [|auto with deq]);
      (destruct (asArray a) as [xs|], (asArray b) as [ys|];
       [ destruct (negb (length xs =? length ys)); [auto with deq|];
         destruct (forallb isPrimitiveItem xs);
         apply everyFrom_boolean; intros; eauto with deq | | | ]);
      (destruct (asMap a) as [ea|], (asMap b) as [eb|];
       [ destruct (negb (length ea =? length eb)); [auto with deq|];
         apply forOfReturnFalse_boolean; intros [key val];
         destruct (negb (mapHas eb key)); eauto with deq | | | ]);
      (destruct (asSet a) as [ma|], (asSet b) as [mb|];
       [ destruct (negb (length ma =? length mb)); [auto with deq|];
         apply forOfReturnFalse_boolean; intros item;
         apply isBoolean_returns, notC_boolean, isBoolean_returns,
               someFrom_boolean; intros; eauto with deq | | | ]);
      (destruct (asPlain a) as [fa|], (asPlain b) as [fb|];
       [ destruct (negb (length (map fst fa) =? length (map fst fb)));
         [auto with deq|];
         apply everyFrom_boolean; intros; eauto with deq | | | ]);
      (destruct (equalsOf a); auto with deq).
Qed.

End DeepEqualFacts.

(** ** The claims about deepEqual *)

(** C8, counterexample: [NaN] is a value that [deepEqual] does not find equal
    to itself at the default depth, although nothing is nested in it. *)
Lemma C8_counterexample :
  deepEqual noEquals NaN NaN defaultDepth = Normal (VBoolean false).
Proof. reflexivity. Qed.

(** C8, amended: for every value [x] and every positive depth (the default
    100 among them), [deepEqual x x] returns true unless [x] is the number
    [NaN], for which it returns false; the identity test answers before
    anything is traversed, so the depth of the nesting of [x] plays no
    part. *)
Theorem C8_deepEqual_reflexive (ce : methodId -> Value -> Value -> Completion Value)
    (x : Value) (depth : Z) :
  (0 < depth)%Z ->
  deepEqual ce x x depth = Normal (VBoolean (negb (isNaN x))).
Proof.
  intros Hd. unfold deepEqual.
  destruct (Z.to_nat depth) as [|n] eqn:Hn; [lia|].
  cbn [deepEqualAux]. destruct (Z.leb_spec depth 0); [lia|].
  destruct (isNaN x) eqn:Hx.
  - destruct x as [| | |f| | | |]; try discriminate.
    destruct f; try discriminate. reflexivity.
  - rewrite (strictEquals_refl x Hx). reflexivity.
Qed.

Lemma C8_deepEqual_reflexive_witness :
  let x := VObject 1 None (SArray [VObject 2 None (SArray [VObject 3 None (SArray [NaN])])]) in
  deepEqual noEquals x x 1 = Normal (VBoolean true)
  /\ deepEqual noEquals NaN NaN 1 = Normal (VBoolean false).
Proof.
  intros x. split.
  - apply (C8_deepEqual_reflexive noEquals x 1). reflexivity.
  - apply (C8_deepEqual_reflexive noEquals NaN 1). reflexivity.
Defined.




(** C10: two distinct objects that are neither arrays, Maps, Sets, Dates nor
    RegExps, that do not both have [Object.prototype] as prototype, and of
    which the first has no [equals] function, are never equal, whatever their
    fields: instances of user classes without [equals] are equal by identity
    only. *)
Theorem C10_class_instances_by_identity
    (ce : methodId -> Value -> Value -> Completion Value)
    (a b : Value) (depth : Z) :
  isObject a = true -> isObject b = true ->
  strictEquals a b = false ->
  isBuiltin a = false -> isBuiltin b = false ->
  hasObjectPrototype a && hasObjectPrototype b = false ->
  equalsOf a = None ->
  deepEqual ce a b depth = Normal (VBoolean false).
Proof.
  intros Ha Hb Hne Hba Hbb Hproto Heq.
  destruct (Z.leb_spec depth 0) as [Hd|Hd].
  { apply deepEqual_depth_exhausted, Hd. }
  unfold deepEqual.
  destruct (Z.to_nat depth) as [|n] eqn:Hn; [lia|].
  cbn [deepEqualAux]. destruct (Z.leb_spec depth 0); [lia|].
  rewrite Hne.
  destruct a as [| | | | | | |ra ma sa]; try discriminate.
  destruct b as [| | | | | | |rb mb sb]; try discriminate.
  simpl in Heq. subst ma.
  destruct sa as [| | | | | |ca fa]; try discriminate;
    destruct sb as [| | | | | |cb fb]; try discriminate;
    try destruct ca; try destruct cb; reflexivity.
Qed.

Lemma C10_class_instances_by_identity_witness :
  deepEqual someEquals
    (classInstance 1 None [("x"%string, num 1); ("y"%string, num 2)])
    (classInstance 2 (Some 0) [("x"%string, num 1); ("y"%string, num 2)])
    defaultDepth
  = Normal (VBoolean false).
Proof.
  apply C10_class_instances_by_identity; reflexivity.
Defined.

(** * Properties of the cache cell *)

Lemma everyFrom_holds {A : Type} (f : A -> nat -> Completion Value) (d : A) xs :
  forall i,
    holds (everyFrom f i xs)
    <-> (forall j, j < length xs -> holds (f (nth j xs d) (i + j))).
Proof.
  induction xs as [|x rest IH]; intros i; simpl.
  - split.
    + intros _ j Hj. lia.
    + intros _. exists (VBoolean true). split; reflexivity.
  - split.
    + intros Hev j Hj.
      destruct (f x i) as [v|e] eqn:Hf.
      * destruct (truthy v) eqn:Hv.
        -- destruct j as [|j].
           ++ rewrite Nat.add_0_r, Hf. exists v. split; [reflexivity | exact Hv].
           ++ replace (i + S j) with (S i + j) by lia.
              apply (proj1 (IH (S i)) Hev). lia.
        -- destruct Hev as [w [Hw Ht]]. inversion Hw. subst w. discriminate.
      * destruct Hev as [w [Hw _]]. discriminate.
    + intros Hall.
      destruct (Hall 0 ltac:(lia)) as [v [Hf Hv]].
      rewrite Nat.add_0_r in Hf. simpl in Hf. rewrite Hf, Hv.
      apply IH. intros j Hj.
      replace (S i + j) with (i + S j) by lia.
      apply (Hall (S j)). lia.
Qed.

Section CellFacts.

Variable callEquals : methodId -> Value -> Value -> Completion Value.

(** The comparison of the argument lists holds exactly under the hit
    condition. *)
Lemma isSame_holds (c : Cell) (args : list Value) :
  holds (isSame callEquals c args) <-> hitCondition callEquals c args.
Proof.
  unfold isSame, hitCondition.
  destruct (calledOnce c).
  - destruct (Nat.eqb_spec (length (previousArgs c)) (length args)) as [Hl|Hl].
    + unfold every. rewrite (everyFrom_holds _ VUndefined). simpl.
      split.
      * intros H. repeat split; [symmetry; exact Hl | exact H].
      * intros [_ [_ H]]. exact H.
    + split.
      * intros [v [Hv Ht]]. inversion Hv. subst v. discriminate.
      * intros [_ [Hl' _]]. congruence.
  - split.
    + intros [v [Hv Ht]]. inversion Hv. subst v. discriminate.
    + intros [Hc _]. discriminate.
Qed.

(** [memoizedFn], path by path. *)
Lemma memoizedFn_unfold (originalMethod : Method) (this : objId)
    (args : list Value) (c : Cell) :
  memoizedFn callEquals originalMethod this args c =
  match isSame callEquals c args with
  | Throw e => (Throw e, c, [])
  | Normal same =>
      if truthy same then (Normal (cachedResult c), c, [])
      else
        match originalMethod this args with
        | Normal r =>
            (Normal r,
             {| previousArgs := args; calledOnce := true; cachedResult := r |},
             [mkCall this args (Normal r)])
        | Throw e =>
            (Throw e, setPreviousArgs args c, [mkCall this args (Throw e)])
        end
  end.
Proof.
  unfold memoizedFn, bind, getState, liftC, modify, apply, ret.
  destruct (isSame callEquals c args) as [same|e]; [|reflexivity].
  destruct (truthy same); [reflexivity|].
  destruct (originalMethod this args); reflexivity.
Qed.

Lemma clearMemo_unfold (c : Cell) : clearMemo c = (Normal tt, newCell, []).
Proof. reflexivity. Qed.

(** A cell that has not run misses without comparing anything. *)
Lemma memoizedFn_not_called (originalMethod : Method) (this : objId)
    (args : list Value) (c : Cell) :
  calledOnce c = false ->
  calls (memoizedFn callEquals originalMethod this args c)
  = [mkCall this args (originalMethod this args)]
  /\ outcome (memoizedFn callEquals originalMethod this args c)
     = originalMethod this args.
Proof.
  intros Hc. rewrite memoizedFn_unfold. unfold isSame. rewrite Hc. simpl.
  destruct (originalMethod this args); split; reflexivity.
Qed.

(** When the underlying method throws on a miss, the cell keeps its flag and
    its result, but the stored arguments are already those of the failed
    call. *)
Lemma memoizedFn_throw (originalMethod : Method) (this : objId)
    (args : list Value) (c : Cell) (same e : Value) :
  isSame callEquals c args = Normal same -> truthy same = false ->
  originalMethod this args = Throw e ->
  memoizedFn callEquals originalMethod this args c
  = (Throw e, setPreviousArgs args c, [mkCall this args (Throw e)]).
Proof.
  intros Hs Ht He. rewrite memoizedFn_unfold, Hs, Ht, He. reflexivity.
Qed.

End CellFacts.

(** ** The claims about the cache cell *)

(** C1, counterexample: the cell has run and the lengths agree, but the
    comparison of the arguments throws (the [equals] method of the new
    argument does); the hit condition does not hold, and yet the underlying
    method is not invoked once but not at all. *)
Lemma C1_counterexample :
  let c := {| previousArgs := [classInstance 2 None []]; calledOnce := true;
              cachedResult := num 10 |} in
  let args := [classInstance 1 (Some 0) []] in
  let r := memoizedFn someEquals whoAmI 7 args c in
  ~ hitCondition someEquals c args
  /\ calls r = []
  /\ outcome r = Throw (errorObject "equals failed").
Proof.
  intros c args r. split; [|split; reflexivity].
  intros [_ [_ H]]. destruct (H 0 ltac:(simpl; lia)) as [v [Hv _]].
  vm_compute in Hv. discriminate.
Qed.

(** A call of a method that only computes, path by path: a hit under the
    hit condition, a miss that invokes the method once when the comparison
    completes and does not hold, the error of the comparison otherwise. *)
Lemma memoizedFn_hit_or_miss
    (ce : methodId -> Value -> Value -> Completion Value)
    (originalMethod : Method) (this : objId) (args : list Value) (c : Cell) :
  let r := memoizedFn ce originalMethod this args c in
  (hitCondition ce c args -> r = (Normal (cachedResult c), c, []))
  /\ (~ hitCondition ce c args ->
      (forall e, isSame ce c args <> Throw e) ->
      calls r = [mkCall this args (originalMethod this args)]
      /\ outcome r = originalMethod this args
      /\ forall res, originalMethod this args = Normal res ->
           finalState r = {| previousArgs := args; calledOnce := true;
                             cachedResult := res |})
  /\ (forall e, isSame ce c args = Throw e -> r = (Throw e, c, []))
  /\ (calledOnce c = false \/ length args <> length (previousArgs c) ->
      isSame ce c args = Normal (VBoolean false)).
Proof.
  intros r. subst r. rewrite memoizedFn_unfold.
  split; [|split; [|split]]; cycle 3.
  { unfold isSame. intros [->|Hlen]; [reflexivity|].
    destruct (calledOnce c); [|reflexivity].
    destruct (Nat.eqb_spec (length (previousArgs c)) (length args));
      [congruence | reflexivity]. }
  - intros Hhit. apply isSame_holds in Hhit. destruct Hhit as [v [-> ->]].
    reflexivity.
  - intros Hmiss Hno.
    destruct (isSame ce c args) as [same|e] eqn:Hs; [|now destruct (Hno e)].
    destruct (truthy same) eqn:Ht.
    + exfalso. apply Hmiss, isSame_holds. exists same. rewrite Hs. split; auto.
    + destruct (originalMethod this args) as [res|e];
        (split; [reflexivity | split; [reflexivity|]]);
        intros res' Hres; inversion Hres; reflexivity.
  - intros e ->. reflexivity.
Qed.

(** ** Methods that call back *)

(** [memoizedFnReentrant], path by path. *)
Lemma memoizedFnReentrant_unfold
    (ce : methodId -> Value -> Value -> Completion Value)
    (stack : nat) (body : MethodBody) (this : objId) (args : list Value)
    (c : Cell) :
  memoizedFnReentrant ce (S stack) body this args c =
  match isSame ce c args with
  | Throw e => (Throw e, c, [])
  | Normal same =>
      if truthy same then (Normal (cachedResult c), c, [])
      else
        match body (memoizedFnReentrant ce stack body this) this args
                   (setPreviousArgs args c) with
        | (Normal v, c1, log) =>
            (Normal v, setCalledOnce true (setCachedResult v c1),
             mkCall this args (Normal v) :: log)
        | (Throw e, c1, log) =>
            (Throw e, c1, mkCall this args (Throw e) :: log)
        end
  end.
Proof.
  cbn [memoizedFnReentrant].
  unfold bind, getState, liftC, modify, applyBody, ret.
  destruct (isSame ce c args) as [same|e]; [|reflexivity].
  destruct (truthy same); [reflexivity|].
  destruct (body (memoizedFnReentrant ce stack body this) this args
                 (setPreviousArgs args c)) as [[[v|e] c1] log]; simpl;
    rewrite ?app_nil_r; reflexivity.
Qed.

(** Around a method that does not call back, the memoized function is
    [memoizedFn] of that method, whatever the stack. *)
Lemma memoizedFnReentrant_plain
    (ce : methodId -> Value -> Value -> Completion Value)
    (stack : nat) (body : MethodBody) (originalMethod : Method)
    (this : objId) (args : list Value) (c : Cell) :
  nonReentrant body originalMethod ->
  memoizedFnReentrant ce (S stack) body this args c
  = memoizedFn ce originalMethod this args c.
Proof.
  intros Hplain. rewrite memoizedFnReentrant_unfold, memoizedFn_unfold.
  destruct (isSame ce c args) as [same|e]; [|reflexivity].
  destruct (truthy same); [reflexivity|].
  rewrite Hplain. destruct (originalMethod this args); reflexivity.
Qed.

Lemma nonReentrant_plainBody (originalMethod : Method) :
  nonReentrant (plainBody originalMethod) originalMethod.
Proof. intros self this args c. reflexivity. Qed.

(** A history on a method that does not call back is the history of
    [runCell]. *)
Lemma runCellReentrant_plain
    (ce : methodId -> Value -> Value -> Completion Value)
    (stack : nat) (body : MethodBody) (originalMethod : Method)
    (this : objId) (ops : list CellOp) :
  nonReentrant body originalMethod ->
  forall c,
    runCellReentrant ce (S stack) body this ops c
    = runCell ce originalMethod this ops c.
Proof.
  intros Hplain. induction ops as [|[args|] rest IH]; intros c.
  - reflexivity.
  - cbn [runCellReentrant runCell].
    rewrite (memoizedFnReentrant_plain ce stack body originalMethod)
      by exact Hplain.
    destruct (memoizedFn ce originalMethod this args c) as [[r c1] log1].
    rewrite IH. reflexivity.
  - cbn [runCellReentrant runCell]. destruct (clearMemo c) as [[u c1] log].
    apply IH.
Qed.

(** C1, amended: under the hit condition (a call has completed, same length,
    [deepEqual] holds at every position) the call returns the stored result
    and changes nothing, without invoking the underlying method, whatever
    that method does.  Otherwise, provided the comparison of the arguments
    itself does not throw and the underlying method does not call back into
    the memoized function or its [clearMemo] while it runs, the underlying
    method is invoked exactly once, its outcome is the outcome of the call,
    and a result it returns is stored with a copy of the arguments.  A
    comparison that throws ends the call with its error, with nothing invoked
    and nothing changed; it cannot throw when the cell has not run or the
    lengths differ, where it is false without comparing anything. *)
Theorem C1_memoizedFn_hit_or_miss
    (ce : methodId -> Value -> Value -> Completion Value)
    (stack : nat) (body : MethodBody) (this : objId) (args : list Value)
    (c : Cell) :
  let r := memoizedFnReentrant ce (S stack) body this args c in
  (hitCondition ce c args -> r = (Normal (cachedResult c), c, []))
  /\ (forall originalMethod,
      nonReentrant body originalMethod ->
      ~ hitCondition ce c args ->
      (forall e, isSame ce c args <> Throw e) ->
      calls r = [mkCall this args (originalMethod this args)]
      /\ outcome r = originalMethod this args
      /\ forall res, originalMethod this args = Normal res ->
           finalState r = {| previousArgs := args; calledOnce := true;
                             cachedResult := res |})
  /\ (forall e, isSame ce c args = Throw e -> r = (Throw e, c, []))
  /\ (calledOnce c = false \/ length args <> length (previousArgs c) ->
      isSame ce c args = Normal (VBoolean false)).
Proof.
  intros r. subst r.
  split; [|split; [|split]].
  - intros Hhit. rewrite memoizedFnReentrant_unfold.
    apply isSame_holds in Hhit. destruct Hhit as [v [-> ->]]. reflexivity.
  - intros originalMethod Hplain Hmiss Hno.
    rewrite (memoizedFnReentrant_plain ce stack body originalMethod)
      by exact Hplain.
    apply (memoizedFn_hit_or_miss ce originalMethod this args c); assumption.
  - intros e He. rewrite memoizedFnReentrant_unfold, He. reflexivity.
  - apply (memoizedFn_hit_or_miss ce (fun _ _ => Normal VUndefined) this args c).
Qed.

Lemma C1_memoizedFn_hit_or_miss_witness :
  let stored := VObject 1 None (SPlain [("a"%string, num 1)]) in
  let again := VObject 2 None (SPlain [("a"%string, num 1)]) in
  let other := VObject 3 None (SPlain [("a"%string, num 2)]) in
  let c := {| previousArgs := [stored]; calledOnce := true;
              cachedResult := num 10 |} in
  memoizedFnReentrant noEquals 5 fibBody 7 [again] c
  = (Normal (num 10), c, [])
  /\ calls (memoizedFnReentrant noEquals 5 (plainBody whoAmI) 7 [other] c)
     = [mkCall 7 [other] (Normal (num 7))]
  /\ finalState (memoizedFnReentrant noEquals 5 (plainBody whoAmI) 7 [other] c)
     = {| previousArgs := [other]; calledOnce := true; cachedResult := num 7 |}.
Proof.
  intros stored again other c.
  destruct (C1_memoizedFn_hit_or_miss noEquals 4 fibBody 7 [again] c)
    as [Hhit _].
  destruct (C1_memoizedFn_hit_or_miss noEquals 4 (plainBody whoAmI) 7 [other] c)
    as [_ [Hmiss _]].
  specialize (Hmiss whoAmI (nonReentrant_plainBody whoAmI)).
  split; [|split].
  - apply Hhit. repeat split. intros i Hi.
    destruct i as [|i]; [|simpl in Hi; lia].
    exists (VBoolean true). split; reflexivity.
  - apply Hmiss.
    + intros [_ [_ H]]. destruct (H 0 ltac:(simpl; lia)) as [v [Hv Ht]].
      vm_compute in Hv. inversion Hv. subst v. discriminate.
    + intros e He. vm_compute in He. discriminate.
  - apply Hmiss.
    + intros [_ [_ H]]. destruct (H 0 ltac:(simpl; lia)) as [v [Hv Ht]].
      vm_compute in Hv. inversion Hv. subst v. discriminate.
    + intros e He. vm_compute in He. discriminate.
    + reflexivity.
Defined.

(** A method that calls back: the recursive [fib], memoized, called with 3 on
    a new cell.  Each nested call writes its arguments to the one cell before
    it runs, so the method is invoked five times, and the cell ends with the
    arguments of the last nested call, 1, beside the result of the outer one,
    2: the next call with 1 is a hit that returns 2.  The assignment of
    [previousArgs] before the call is the one of the failing run of C3. *)
Example reentrant_call_leaves_inner_arguments :
  let r := memoizedFnReentrant noEquals 10 fibBody 0 [num 3] newCell in
  let r' := memoizedFnReentrant noEquals 10 fibBody 0 [num 1] (finalState r) in
  outcome r = Normal (num 2)
  /\ map callArgs (calls r) = [[num 3]; [num 2]; [num 1]; [num 0]; [num 1]]
  /\ finalState r = {| previousArgs := [num 1]; calledOnce := true;
                       cachedResult := num 2 |}
  /\ r' = (Normal (num 2), finalState r, []).
Proof. vm_compute. repeat split. Qed.

(** C3, the failing run: a first call with 1 succeeds and caches 10; a call
    with 2 throws, and leaves the arguments of the failed call in the cell
    beside the flag and the result of the first one; the retry with 2 is then
    a hit that returns 10 without invoking the method. *)
Theorem C3_stale_hit_after_failure :
  let r1 := memoizedFn noEquals flaky 0 [num 1] newCell in
  let r2 := memoizedFn noEquals flaky 0 [num 2] (finalState r1) in
  let r3 := memoizedFn noEquals flaky 0 [num 2] (finalState r2) in
  outcome r1 = Normal (num 10)
  /\ outcome r2 = Throw (errorObject "failed")
  /\ finalState r1 = {| previousArgs := [num 1]; calledOnce := true;
                        cachedResult := num 10 |}
  /\ finalState r2 = {| previousArgs := [num 2]; calledOnce := true;
                        cachedResult := num 10 |}
  /\ outcome r3 = Normal (num 10)
  /\ calls r3 = [].
Proof. repeat split. Qed.


(** * Properties of the time-bounded cell *)

Section TimeBoundedFacts.

Variable callEquals : methodId -> Value -> Value -> Completion Value.

(** [invokeTtl], path by path. *)
Lemma invokeTtl_unfold (compute : Method) (this : objId) (args : list Value)
    (now : Z) (c : TtlCell) :
  invokeTtl callEquals compute this args now c =
  let miss :=
    match compute this args with
    | Normal r =>
        (Normal r,
         {| storedArgs := args; storedResult := Some r; hasRun := true;
            computedAt := Some now; ttlMillis := ttlMillis c |},
         [mkCall this args (Normal r)])
    | Throw e => (Throw e, c, [mkCall this args (Throw e)])
    end in
  if hasRun c && withinTtl c now then
    match argsEqual callEquals (storedArgs c) args with
    | Throw e => (Throw e, c, [])
    | Normal same =>
        if truthy same
        then (Normal (default VUndefined (storedResult c)), c, [])
        else miss
    end
  else miss.
Proof.
  unfold invokeTtl, recompute, bind, getState, liftC, modify, apply, ret.
  destruct (hasRun c && withinTtl c now).
  - destruct (argsEqual callEquals (storedArgs c) args) as [same|e];
      [|reflexivity].
    destruct (truthy same); [reflexivity|].
    destruct (compute this args); reflexivity.
  - simpl. destruct (compute this args); reflexivity.
Qed.

Lemma withinTtl_spec (c : TtlCell) (now : Z) :
  withinTtl c now = true
  <-> exists t, computedAt c = Some t /\ (now - t < ttlMillis c)%Z.
Proof.
  unfold withinTtl. destruct (computedAt c) as [t|].
  - rewrite Z.ltb_lt. split.
    + intros H. exists t. split; [reflexivity | exact H].
    + intros [t' [Ht H]]. inversion Ht. subst t'. exact H.
  - split; [discriminate | intros [t [Ht _]]; discriminate].
Qed.

End TimeBoundedFacts.

(** C2: for a time-bounded cell, a call is a hit (it returns without invoking
    the computation) only when the cell has run, the arguments are equal
    under the rule of the plain cell and the time elapsed since the last
    computation is strictly less than [ttlMillis]; under these conditions it
    is one, and returns the stored result.  Once the elapsed time has reached
    [ttlMillis] the call is a miss whatever the arguments, equal ones
    included: the computation is invoked once, and on its return the
    timestamp is the time of this call. *)
Theorem C2_invokeTtl_hit_and_expiry
    (ce : methodId -> Value -> Value -> Completion Value)
    (compute : Method) (this : objId) (args : list Value) (now : Z)
    (c : TtlCell) :
  let r := invokeTtl ce compute this args now c in
  (calls r = [] -> (exists v, outcome r = Normal v) ->
     hasRun c = true
     /\ holds (argsEqual ce (storedArgs c) args)
     /\ exists t, computedAt c = Some t /\ (now - t < ttlMillis c)%Z)
  /\ (hasRun c = true -> holds (argsEqual ce (storedArgs c) args) ->
      forall t, computedAt c = Some t -> (now - t < ttlMillis c)%Z ->
      r = (Normal (default VUndefined (storedResult c)), c, []))
  /\ (hasRun c = true ->
      forall t, computedAt c = Some t -> (ttlMillis c <= now - t)%Z ->
      calls r = [mkCall this args (compute this args)]
      /\ outcome r = compute this args
      /\ forall res, compute this args = Normal res ->
           finalState r = {| storedArgs := args; storedResult := Some res;
                             hasRun := true; computedAt := Some now;
                             ttlMillis := ttlMillis c |}).
Proof.
  intros r. subst r. rewrite invokeTtl_unfold. cbv zeta.
  split; [|split].
  - intros Hcalls [v Hout].
    destruct (hasRun c); simpl in *.
    + destruct (withinTtl c now) eqn:Hw.
      * destruct (argsEqual ce (storedArgs c) args) as [same|e] eqn:Hargs;
          [|discriminate].
        destruct (truthy same) eqn:Ht.
        -- repeat split.
           ++ exists same. split; [reflexivity | exact Ht].
           ++ apply withinTtl_spec, Hw.
        -- destruct (compute this args); discriminate.
      * destruct (compute this args); discriminate.
    + destruct (compute this args); discriminate.
  - intros Hrun [same [Hargs Ht]] t Hat Hlt.
    replace (withinTtl c now) with true.
    + rewrite Hrun, Hargs, Ht. reflexivity.
    + symmetry. apply withinTtl_spec. exists t. split; assumption.
  - intros Hrun t Hat Hge.
    replace (withinTtl c now) with false.
    + rewrite andb_false_r.
      destruct (compute this args) as [res|e];
        (split; [reflexivity | split; [reflexivity|]]);
        intros res' Hres; inversion Hres; reflexivity.
    + unfold withinTtl. rewrite Hat. symmetry. apply Z.ltb_ge. exact Hge.
Qed.

Lemma C2_invokeTtl_hit_and_expiry_witness :
  let c := {| storedArgs := [num 1]; storedResult := Some (num 5);
              hasRun := true; computedAt := Some 0%Z; ttlMillis := 100%Z |} in
  invokeTtl noEquals whoAmI 7 [num 1] 99 c = (Normal (num 5), c, [])
  /\ calls (invokeTtl noEquals whoAmI 7 [num 1] 100 c)
     = [mkCall 7 [num 1] (Normal (num 7))]
  /\ finalState (invokeTtl noEquals whoAmI 7 [num 1] 100 c)
     = {| storedArgs := [num 1]; storedResult := Some (num 7); hasRun := true;
          computedAt := Some 100%Z; ttlMillis := 100%Z |}
  /\ hasRun c = true.
Proof.
  intros c.
  destruct (C2_invokeTtl_hit_and_expiry noEquals whoAmI 7 [num 1] 99 c)
    as [Honly [Hhit _]].
  destruct (C2_invokeTtl_hit_and_expiry noEquals whoAmI 7 [num 1] 100 c)
    as [_ [_ Hexp]].
  assert (invokeTtl noEquals whoAmI 7 [num 1] 99 c = (Normal (num 5), c, []))
    as Hrun.
  { apply (Hhit eq_refl) with (t := 0%Z).
    - exists (VBoolean true). split; reflexivity.
    - reflexivity.
    - reflexivity. }
  destruct (Hexp eq_refl 0%Z eq_refl ltac:(vm_compute; discriminate))
    as [Hcalls [_ Hstate]].
  split; [exact Hrun | split; [exact Hcalls | split]].
  - apply Hstate. reflexivity.
  - apply Honly.
    + rewrite Hrun. reflexivity.
    + rewrite Hrun. exists (num 5). reflexivity.
Defined.

(** * Properties of decorated classes *)

(** C5, the failing run: a class whose method ["m"] is memoized through the
    stage 3 protocol has one cell, made when the class is decorated; the call
    on instance 1 computes and stores its result, and the same call on
    instance 2 is a hit on that cell: it returns the result of instance 1 and
    the method is not invoked on instance 2. *)
Theorem C5_stage3_cell_shared :
  let decorated := memoized (Stage3Args whoAmI KindMethod "m") ∅ in
  let class := classWith (outcome decorated) in
  let a := newInstance 1 class in
  let b := newInstance 2 class in
  let ra := callMethod noEquals "m" [num 7]
              {| obj := a; heap := finalState decorated |} in
  let rb := callMethod noEquals "m" [num 7]
              {| obj := b; heap := heap (finalState ra) |} in
  outcome ra = Normal (num 1)
  /\ calls ra = [mkCall 1 [num 7] (Normal (num 1))]
  /\ outcome rb = Normal (num 1)
  /\ calls rb = [].
Proof. vm_compute. repeat split. Qed.

(** The legacy protocol on the same class: each instance gets its own cell at
    its first access, and the second instance computes its own result. *)
Example legacy_cell_per_instance :
  let decorated :=
    memoized (LegacyArgs "m" {| descGet := None;
                                descValue := Some (ValueFunction whoAmI) |}) ∅ in
  let class := classWith (outcome decorated) in
  let a := newInstance 1 class in
  let b := newInstance 2 class in
  let ra := callMethod noEquals "m" [num 7]
              {| obj := a; heap := finalState decorated |} in
  let rb := callMethod noEquals "m" [num 7]
              {| obj := b; heap := heap (finalState ra) |} in
  outcome ra = Normal (num 1)
  /\ outcome rb = Normal (num 2)
  /\ calls rb = [mkCall 2 [num 7] (Normal (num 2))].
Proof. vm_compute. repeat split. Qed.

(** The stage 3 protocol registers nothing on the instance, so that
    [clearAllMemoized] after a call clears nothing and the next call is still
    a hit. *)
Example stage3_clearAll_clears_nothing :
  let decorated := memoized (Stage3Args whoAmI KindMethod "m") ∅ in
  let a := newInstance 1 (classWith (outcome decorated)) in
  let ra := callMethod noEquals "m" [num 7]
              {| obj := a; heap := finalState decorated |} in
  let rc := callClearAll (finalState ra) in
  let rb := callMethod noEquals "m" [num 7] (finalState rc) in
  memoizedClearFns (obj (finalState ra)) = None
  /\ outcome rb = Normal (num 1)
  /\ calls rb = [].
Proof. vm_compute. repeat split. Qed.

(** ** The registry as an association list *)

Lemma assocGet_assocSet_eq (key : string) (a : nat) fns :
  assocGet key (assocSet key a fns) = Some a.
Proof.
  induction fns as [|[k b] rest IH]; simpl.
  - rewrite String.eqb_refl. reflexivity.
  - destruct (String.eqb k key) eqn:Hk; simpl; rewrite Hk; auto.
Qed.

Lemma assocGet_assocSet_ne (key key' : string) (a : nat) fns :
  key <> key' -> assocGet key (assocSet key' a fns) = assocGet key fns.
Proof.
  intros Hne. induction fns as [|[k b] rest IH]; simpl.
  - destruct (String.eqb_spec key' key); [congruence | reflexivity].
  - destruct (String.eqb_spec k key') as [->|Hk]; simpl.
    + destruct (String.eqb_spec key' key); [congruence | reflexivity].
    + destruct (String.eqb k key); [reflexivity | exact IH].
Qed.


Lemma registryGet_register_eq (key : string) (a : nat) (i : Instance) :
  registryGet key (registerClearFn key a i) = Some a.
Proof. unfold registryGet. simpl. apply assocGet_assocSet_eq. Qed.

Lemma registryGet_register_ne (key key' : string) (a : nat) (i : Instance) :
  key <> key' ->
  registryGet key (registerClearFn key' a i) = registryGet key i.
Proof.
  intros Hne. unfold registryGet. simpl.
  rewrite assocGet_assocSet_ne by exact Hne.
  destruct (memoizedClearFns i); reflexivity.
Qed.

Ltac fin := unfold finalState, outcome, calls in *; simpl in *.

(** ** Property reads *)

(** [getProperty], path by path. *)
Lemma getProperty_unfold (key : string) (w : World) :
  getProperty key w =
  match own (obj w) !! key with
  | Some p => (Normal p, w, [])
  | None =>
      match proto (obj w) !! key with
      | Some (ReplacementGetter target name)
      | Some (GetterDescriptor target name) =>
          match target (self (obj w)) [] with
          | Normal v =>
              (Normal (PValue v),
               {| obj := defineProperty name (PValue v) (obj w);
                  heap := heap w |},
               [mkCall (self (obj w)) [] (Normal v)])
          | Throw e => (Throw e, w, [mkCall (self (obj w)) [] (Throw e)])
          end
      | Some (ReplacementMethod fn) => (Normal (PMemoized fn), w, [])
      | Some (MethodDescriptor value propertyKey) =>
          let a := fresh (dom (heap w)) in
          let fn := {| original := value; cellAt := a |} in
          (Normal (PMemoized fn),
           {| obj := defineProperty propertyKey (PMemoized fn)
                       (registerClearFn propertyKey a (obj w));
              heap := <[a := newCell]> (heap w) |},
           [])
      | None => (Normal (PValue VUndefined), w, [])
      end
  end.
Proof.
  destruct w as [i h].
  unfold getProperty, bind, getState, modifyObj, modify, apply, ret, onHeap,
    createMemoizedMethod.
  simpl.
  destruct (own i !! key); [reflexivity|].
  destruct (proto i !! key) as [[target name|fn|target name|value pk]|];
    try reflexivity;
    destruct (target (self i) []); reflexivity.
Qed.

(** A read leaves the class and the identity of the instance alone. *)
Lemma getProperty_proto_self (key : string) (w : World) :
  proto (obj (finalState (getProperty key w))) = proto (obj w)
  /\ self (obj (finalState (getProperty key w))) = self (obj w).
Proof.
  rewrite getProperty_unfold.
  destruct (own (obj w) !! key); [split; reflexivity|].
  destruct (proto (obj w) !! key) as [[target name|fn|target name|value pk]|];
    try (split; reflexivity);
    destruct (target (self (obj w)) []); split; reflexivity.
Qed.

(** A read of [key] changes no other property and no other registry entry. *)
Lemma getProperty_frame (key k : string) (w : World) :
  wfProto (proto (obj w)) -> k <> key ->
  own (obj (finalState (getProperty key w))) !! k = own (obj w) !! k
  /\ registryGet k (obj (finalState (getProperty key w)))
     = registryGet k (obj w).
Proof.
  intros Hwf Hne. rewrite getProperty_unfold.
  destruct (own (obj w) !! key); [split; reflexivity|].
  destruct (proto (obj w) !! key) as [d|] eqn:Hp; [|split; reflexivity].
  destruct d as [target name|fn|target name|value name];
    try (split; reflexivity);
    assert (name = key) as -> by (eapply Hwf; [exact Hp | reflexivity]).
  - destruct (target (self (obj w)) []); [|split; reflexivity].
    simpl. split; [apply lookup_insert_ne; congruence | reflexivity].
  - destruct (target (self (obj w)) []); [|split; reflexivity].
    simpl. split; [apply lookup_insert_ne; congruence | reflexivity].
  - simpl. split.
    + apply lookup_insert_ne. congruence.
    + apply registryGet_register_ne. exact Hne.
Qed.

(** Own properties stay once defined. *)
Lemma getProperty_keeps (key k : string) (p : Property) (w : World) :
  wfProto (proto (obj w)) ->
  own (obj w) !! k = Some p ->
  own (obj (finalState (getProperty key w))) !! k = Some p.
Proof.
  intros Hwf Hown.
  destruct (String.eqb_spec k key) as [->|Hne].
  - rewrite getProperty_unfold, Hown. exact Hown.
  - rewrite (proj1 (getProperty_frame key k w Hwf Hne)). exact Hown.
Qed.

(** A read keeps the instance consistent with its class. *)
Lemma getProperty_consistent (key : string) (w : World) :
  wfProto (proto (obj w)) -> Consistent (obj w) ->
  Consistent (obj (finalState (getProperty key w))).
Proof.
  intros Hwf Hc k.
  destruct (String.eqb_spec k key) as [->|Hne].
  - specialize (Hc key). rewrite getProperty_unfold.
    destruct (own (obj w) !! key) as [p|] eqn:Hown.
    { fin. rewrite Hown. exact Hc. }
    destruct (proto (obj w) !! key) as [d|] eqn:Hp;
      [|fin; rewrite Hown; exact Hc].
    destruct d as [target name|fn|target name|value name];
      try (fin; rewrite Hown; exact Hc);
      assert (name = key) as -> by (eapply Hwf; [exact Hp | reflexivity]).
    + destruct (target (self (obj w)) []); [|fin; rewrite Hown; exact Hc].
      fin. rewrite lookup_insert_eq.
      exists target, (ReplacementGetter target key).
      split; [exact Hp | right; reflexivity].
    + destruct (target (self (obj w)) []); [|fin; rewrite Hown; exact Hc].
      fin. rewrite lookup_insert_eq.
      exists target, (GetterDescriptor target key).
      split; [exact Hp | left; reflexivity].
    + fin. rewrite lookup_insert_eq. split.
      * apply (registryGet_register_eq key _ (obj w)).
      * exact Hp.
  - destruct (getProperty_frame key k w Hwf Hne) as [Hown Hreg].
    destruct (getProperty_proto_self key w) as [Hproto _].
    specialize (Hc k). rewrite Hown.
    destruct (own (obj w) !! k) as [[v|fn]|].
    + rewrite Hproto. exact Hc.
    + rewrite Hproto.
      unfold registryGet in *. fin. rewrite Hreg. exact Hc.
    + rewrite Hreg. exact Hc.
Qed.


(** ** Actions and histories *)

Section HistoryFacts.

Variable callEquals : methodId -> Value -> Value -> Completion Value.

(** Calling a memoized function or a [clearMemo] only touches the heap. *)
Lemma onHeap_obj {A : Type} (m : M Heap A) (w : World) :
  obj (finalState (onHeap m w)) = obj w.
Proof.
  unfold onHeap, finalState. destruct (m (heap w)) as [[r h] log]. reflexivity.
Qed.

(** What an action does to the instance is what the read it begins with
    does. *)
Lemma perform_obj (act : Action) (w : World) :
  obj (finalState (perform callEquals act w)) =
  match act with
  | Read key | CallMethod key _ | ClearMemo key =>
      obj (finalState (getProperty key w))
  | ClearAll => obj w
  end.
Proof.
  destruct act as [key|key args|key|]; unfold perform.
  - unfold bind, ret. destruct (getProperty key w) as [[[p|e] w1] log];
      reflexivity.
  - unfold callMethod, bind, getState.
    destruct (getProperty key w) as [[[p|e] w1] log]; [|reflexivity].
    destruct p as [v|fn]; fin; [reflexivity|].
    pose proof (onHeap_obj (callMemoized callEquals fn (self (obj w1)) args) w1)
      as Hobj.
    unfold finalState in Hobj.
    destruct (onHeap (callMemoized callEquals fn (self (obj w1)) args) w1)
      as [[r w2] log2].
    destruct r; exact Hobj.
  - unfold callClearMemo, bind.
    destruct (getProperty key w) as [[[p|e] w1] log]; [|reflexivity].
    destruct p as [v|fn]; fin; reflexivity.
  - unfold callClearAll, bind, getState. fin.
    pose proof (onHeap_obj (clearAllMemoized (obj w)) w) as Hobj.
    unfold finalState in Hobj.
    destruct (onHeap (clearAllMemoized (obj w)) w) as [[r w2] log2].
    destruct r; exact Hobj.
Qed.

Lemma perform_proto_self (act : Action) (w : World) :
  proto (obj (finalState (perform callEquals act w))) = proto (obj w)
  /\ self (obj (finalState (perform callEquals act w))) = self (obj w).
Proof.
  rewrite perform_obj.
  destruct act; try apply getProperty_proto_self. split; reflexivity.
Qed.

Lemma perform_consistent (act : Action) (w : World) :
  wfProto (proto (obj w)) -> Consistent (obj w) ->
  Consistent (obj (finalState (perform callEquals act w))).
Proof.
  intros Hwf Hc. rewrite perform_obj.
  destruct act; try (apply getProperty_consistent; assumption). exact Hc.
Qed.

Lemma perform_keeps (act : Action) (k : string) (p : Property) (w : World) :
  wfProto (proto (obj w)) ->
  own (obj w) !! k = Some p ->
  own (obj (finalState (perform callEquals act w))) !! k = Some p.
Proof.
  intros Hwf Hown. rewrite perform_obj.
  destruct act; try (apply getProperty_keeps; assumption). exact Hown.
Qed.



Lemma runActions_cons (act : Action) (rest : list Action) (w : World) :
  fst (runActions callEquals (act :: rest) w)
  = fst (runActions callEquals rest (finalState (perform callEquals act w))).
Proof.
  simpl. unfold finalState.
  destruct (perform callEquals act w) as [[r w1] log1]. simpl.
  destruct (runActions callEquals rest w1) as [w2 log2]. reflexivity.
Qed.

(** Along a history the class and the identity stay, the instance stays
    consistent, and own properties stay once defined. *)
Lemma runActions_invariant (acts : list Action) :
  forall w,
    wfProto (proto (obj w)) -> Consistent (obj w) ->
    let w' := fst (runActions callEquals acts w) in
    proto (obj w') = proto (obj w)
    /\ self (obj w') = self (obj w)
    /\ Consistent (obj w')
    /\ forall k p, own (obj w) !! k = Some p -> own (obj w') !! k = Some p.
Proof.
  induction acts as [|act rest IH]; intros w Hwf Hc.
  - simpl. repeat split; auto.
  - cbv zeta. rewrite runActions_cons.
    destruct (perform_proto_self act w) as [Hproto Hself].
    pose proof (perform_consistent act w Hwf Hc) as Hc1.
    assert (wfProto (proto (obj (finalState (perform callEquals act w)))))
      as Hwf1 by (rewrite Hproto; exact Hwf).
    destruct (IH _ Hwf1 Hc1) as [Hp [Hs [Hcons Hkeep]]].
    repeat split.
    + rewrite Hp. exact Hproto.
    + rewrite Hs. exact Hself.
    + exact Hcons.
    + intros k p Hown. apply Hkeep, perform_keeps; assumption.
Qed.



End HistoryFacts.

(** ** clearAllMemoized *)

Section ClearFacts.

Variable callEquals : methodId -> Value -> Value -> Completion Value.

Lemma clearMemoAt_unfold (a : nat) (h : Heap) :
  clearMemoAt a h = (Normal tt, <[a := newCell]> h, []).
Proof. reflexivity. Qed.

Lemma forEach_clearMemoAt (addrs : list nat) :
  forall h : Heap,
    forEach clearMemoAt addrs h
    = (Normal tt, foldl (fun h' a => <[a := newCell]> h') h addrs, []).
Proof.
  induction addrs as [|a rest IH]; intros h; [reflexivity|].
  simpl. unfold bind. rewrite clearMemoAt_unfold, IH. reflexivity.
Qed.

Lemma cleared_stays (addrs : list nat) (a : nat) :
  forall h : Heap,
    h !! a = Some newCell ->
    foldl (fun h' b => <[b := newCell]> h') h addrs !! a = Some newCell.
Proof.
  induction addrs as [|b rest IH]; intros h Ha; [exact Ha|].
  simpl. apply IH. destruct (decide (b = a)) as [->|Hne].
  - apply lookup_insert_eq.
  - rewrite lookup_insert_ne by exact Hne. exact Ha.
Qed.

Lemma cleared_lookup (addrs : list nat) (a : nat) :
  forall h : Heap,
    In a addrs ->
    foldl (fun h' b => <[b := newCell]> h') h addrs !! a = Some newCell.
Proof.
  induction addrs as [|b rest IH]; intros h Hin; [destruct Hin|].
  simpl. destruct Hin as [->|Hin].
  - apply cleared_stays, lookup_insert_eq.
  - apply IH, Hin.
Qed.



End ClearFacts.

Lemma wfProto_empty : wfProto ∅.
Proof. intros k d name H. rewrite lookup_empty in H. discriminate. Qed.

Lemma wfProto_insert (k : string) (d : Decorated) (p : gmap string Decorated) :
  (forall name, memberName d = Some name -> name = k) ->
  wfProto p -> wfProto (<[k := d]> p).
Proof.
  intros Hd Hp k' d' name Hl Hn.
  destruct (decide (k = k')) as [<-|Hne].
  - rewrite lookup_insert_eq in Hl. inversion Hl. subst d'. apply Hd, Hn.
  - rewrite lookup_insert_ne in Hl by exact Hne. eapply Hp; eassumption.
Qed.

Lemma wfProto_legacyClass : wfProto legacyClass.
Proof.
  unfold legacyClass.
  repeat (apply wfProto_insert;
          [intros name Hn; simpl in Hn; inversion Hn; reflexivity|]).
  apply wfProto_empty.
Defined.

Lemma Consistent_newInstance (id : objId) (p : gmap string Decorated) :
  Consistent (newInstance id p).
Proof. intros k. simpl. rewrite lookup_empty. reflexivity. Qed.

(** ** The claims about decorated classes *)




(** Own properties stay along any history. *)
Lemma runActions_keeps (ce : methodId -> Value -> Value -> Completion Value)
    (acts : list Action) (k : string) (p : Property) :
  forall w,
    wfProto (proto (obj w)) ->
    own (obj w) !! k = Some p ->
    own (obj (fst (runActions ce acts w))) !! k = Some p.
Proof.
  induction acts as [|act rest IH]; intros w Hwf Hown; [exact Hown|].
  rewrite runActions_cons.
  destruct (perform_proto_self ce act w) as [Hproto _].
  apply IH.
  - rewrite Hproto. exact Hwf.
  - apply perform_keeps; assumption.
Qed.

(** C7, counterexample: a memoized getter whose computation throws is
    evaluated at each access, twice over two accesses of one object; nothing
    replaces the accessor. *)
Lemma C7_counterexample :
  let decorated :=
    memoized (LegacyArgs "m" {| descGet := Some alwaysFails;
                                descValue := None |}) ∅ in
  let w := {| obj := newInstance 1 (classWith (outcome decorated));
              heap := finalState decorated |} in
  let r1 := getProperty "m" w in
  let r2 := getProperty "m" (finalState r1) in
  calls r1 = [mkCall 1 [] (Throw (errorObject "failed"))]
  /\ calls r2 = [mkCall 1 [] (Throw (errorObject "failed"))]
  /\ own (obj (finalState r2)) !! "m"%string = None.
Proof. vm_compute. repeat split. Qed.

(** C7, amended: for a memoized getter that defines its value under the
    name it is read at (every getter of the legacy protocol and every public
    getter of the stage 3 protocol), in a class whose memoized members all
    sit under the names they were decorated with, the first access whose
    computation returns evaluates it once and replaces the accessor, on that
    object, by the value; from then on, through any history of reads, calls
    and clears ([clearAllMemoized] among them), the value stays and every
    access returns it without evaluating or comparing anything; an access
    never adds to the registry.  An access whose computation throws replaces
    nothing, so that the next access evaluates again.  A private getter of
    the stage 3 protocol is outside: see [getter_read_elsewhere_recomputes]
    below. *)
Theorem C7_memoized_getter
    (ce : methodId -> Value -> Value -> Completion Value)
    (w : World) (key : string) (target : Method) (d : Decorated) :
  wfProto (proto (obj w)) ->
  proto (obj w) !! key = Some d ->
  isGetter target key d ->
  let this := self (obj w) in
  (own (obj w) !! key = None ->
     forall v, target this [] = Normal v ->
       getProperty key w
       = (Normal (PValue v),
          {| obj := defineProperty key (PValue v) (obj w); heap := heap w |},
          [mkCall this [] (Normal v)]))
  /\ (forall v, own (obj w) !! key = Some (PValue v) ->
      forall acts,
        let w' := fst (runActions ce acts w) in
        own (obj w') !! key = Some (PValue v)
        /\ getProperty key w' = (Normal (PValue v), w', []))
  /\ memoizedClearFns (obj (finalState (getProperty key w)))
     = memoizedClearFns (obj w)
  /\ (own (obj w) !! key = None ->
      forall e, target this [] = Throw e ->
        getProperty key w = (Throw e, w, [mkCall this [] (Throw e)])).
Proof.
  intros Hwf Hp Hg this.
  split; [|split; [|split]].
  - intros Hown v Hv. rewrite getProperty_unfold, Hown, Hp.
    destruct Hg as [->| ->]; fold this; rewrite Hv; reflexivity.
  - intros v Hown acts w'.
    assert (own (obj w') !! key = Some (PValue v)) as Hown'
      by (apply runActions_keeps; assumption).
    split; [exact Hown'|].
    rewrite getProperty_unfold, Hown'. reflexivity.
  - rewrite getProperty_unfold.
    destruct (own (obj w) !! key); [reflexivity|].
    rewrite Hp.
    destruct Hg as [->| ->]; destruct (target (self (obj w)) []); reflexivity.
  - intros Hown e He. rewrite getProperty_unfold, Hown, Hp.
    destruct Hg as [->| ->]; fold this; rewrite He; reflexivity.
Qed.

Lemma C7_memoized_getter_witness :
  let w := {| obj := newInstance 4 legacyClass; heap := ∅ |} in
  let r := getProperty "g" w in
  let w' := fst (runActions noEquals [ClearAll; Read "g"; CallMethod "m" []]
                   (finalState r)) in
  r = (Normal (PValue (num 4)),
       {| obj := defineProperty "g" (PValue (num 4)) (obj w); heap := ∅ |},
       [mkCall 4 [] (Normal (num 4))])
  /\ getProperty "g" w' = (Normal (PValue (num 4)), w', []).
Proof.
  intros w r w'.
  destruct (C7_memoized_getter noEquals w "g" whoAmI (GetterDescriptor whoAmI "g")
              wfProto_legacyClass eq_refl (or_introl eq_refl))
    as [Hfirst _].
  destruct (C7_memoized_getter noEquals (finalState r) "g" whoAmI
              (GetterDescriptor whoAmI "g")
              wfProto_legacyClass eq_refl (or_introl eq_refl))
    as [_ [Hlater _]].
  split.
  - apply Hfirst; reflexivity.
  - apply (Hlater (num 4) eq_refl [ClearAll; Read "g"; CallMethod "m" []]).
Defined.

(** A getter read at a place other than the name it defines: the private
    getter [get #x()] of the stage 3 protocol, whose [context.name] is the
    string ['#x'] while the accessor is read at the private slot.  The
    access defines a public property named ['#x'], the slot still holds the
    accessor, and the next access evaluates the computation again: such a
    getter is computed at every access. *)
Lemma getter_read_elsewhere_recomputes
    (w : World) (slot name : string) (target : Method) (v : Value) :
  slot <> name ->
  proto (obj w) !! slot = Some (ReplacementGetter target name) ->
  own (obj w) !! slot = None ->
  target (self (obj w)) [] = Normal v ->
  let r := getProperty slot w in
  r = (Normal (PValue v),
       {| obj := defineProperty name (PValue v) (obj w); heap := heap w |},
       [mkCall (self (obj w)) [] (Normal v)])
  /\ own (obj (finalState r)) !! slot = None
  /\ calls (getProperty slot (finalState r))
     = [mkCall (self (obj w)) [] (Normal v)].
Proof.
  intros Hne Hp Hown Hv r.
  assert (r = (Normal (PValue v),
               {| obj := defineProperty name (PValue v) (obj w);
                  heap := heap w |},
               [mkCall (self (obj w)) [] (Normal v)])) as Hr.
  { subst r. rewrite getProperty_unfold, Hown, Hp, Hv. reflexivity. }
  assert (own (obj (finalState r)) !! slot = None) as Hown'.
  { rewrite Hr. fin. rewrite lookup_insert_ne by congruence. exact Hown. }
  split; [exact Hr | split; [exact Hown'|]].
  rewrite getProperty_unfold, Hown'. rewrite Hr. fin. rewrite Hp, Hv.
  reflexivity.
Qed.

Example private_getter_recomputes :
  let w := {| obj := newInstance 4
                       {[ "private slot x"%string
                          := ReplacementGetter whoAmI "#x" ]};
              heap := ∅ |} in
  let w' := fst (runActions noEquals
                   [Read "private slot x"; Read "private slot x"] w) in
  snd (runActions noEquals
         [Read "private slot x"; Read "private slot x";
          Read "private slot x"] w)
  = [mkCall 4 [] (Normal (num 4)); mkCall 4 [] (Normal (num 4));
     mkCall 4 [] (Normal (num 4))]
  /\ own (obj w') !! "private slot x"%string = None
  /\ own (obj w') !! "#x"%string = Some (PValue (num 4)).
Proof. vm_compute. repeat split. Qed.

(** * Further properties of deepEqual *)

(** ** Loops whose callback never throws *)

Lemma holds_boolean (b : bool) : holds (Normal (VBoolean b)) <-> b = true.
Proof.
  split.
  - intros [v [Hv Ht]]. inversion Hv. subst v. exact Ht.
  - intros ->. exists (VBoolean true). split; reflexivity.
Qed.

Lemma holds_retBool (b : bool) : holds (retBool b) <-> b = true.
Proof. apply holds_boolean. Qed.

Lemma not_holds_Throw (e : Value) : ~ holds (Throw e).
Proof. intros [v [Hv _]]. discriminate. Qed.

Lemma isBoolean_cases (c : Completion Value) :
  isBoolean c -> c = Normal (VBoolean true) \/ c = Normal (VBoolean false).
Proof. intros [[|] ->]; auto. Qed.

Lemma isBoolean_holds (c : Completion Value) :
  isBoolean c -> (holds c <-> c = Normal (VBoolean true)).
Proof.
  intros [b ->]. rewrite holds_boolean. split.
  - intros ->. reflexivity.
  - intros H. inversion H. reflexivity.
Qed.

Lemma isBoolean_not_holds (c : Completion Value) :
  isBoolean c -> (~ holds c <-> c = Normal (VBoolean false)).
Proof.
  intros [b ->]. rewrite holds_boolean. destruct b; split; congruence.
Qed.

(** [some] with a callback that ignores the index and never throws. *)
Lemma someFrom_holds {A : Type} (g : A -> Completion Value) xs :
  forall i,
    (forall x, exists v, g x = Normal v) ->
    (holds (someFrom (fun x _ => g x) i xs)
     <-> exists x, In x xs /\ holds (g x)).
Proof.
  induction xs as [|x rest IH]; intros i Hg; simpl.
  - split.
    + intros H. apply holds_boolean in H. discriminate.
    + intros [x [[] _]].
  - destruct (Hg x) as [v Hv]. rewrite Hv.
    destruct (truthy v) eqn:Ht.
    + split.
      * intros _. exists x. split; [left; reflexivity|].
        exists v. split; assumption.
      * intros _. apply holds_boolean. reflexivity.
    + rewrite (IH (S i) Hg). split.
      * intros [y [Hin Hy]]. exists y. split; [right; exact Hin | exact Hy].
      * intros [y [[<-|Hin] Hy]].
        -- destruct Hy as [w [Hw Hwt]]. rewrite Hv in Hw. inversion Hw.
           subst w. congruence.
        -- exists y. split; assumption.
Qed.

(** The loop over the first [Map] or [Set], with a test that never throws. *)
Lemma forOfReturnFalse_holds {A : Type} (test : A -> Completion Value) xs :
  (forall x, exists v, test x = Normal v) ->
  (holds (forOfReturnFalse test xs) <-> forall x, In x xs -> ~ holds (test x)).
Proof.
  intros Htest. induction xs as [|x rest IH]; simpl.
  - split.
    + intros _ x [].
    + intros _. apply holds_boolean. reflexivity.
  - destruct (Htest x) as [v Hv]. rewrite Hv.
    destruct (truthy v) eqn:Ht.
    + split.
      * intros H. apply holds_boolean in H. discriminate.
      * intros H. exfalso. apply (H x); [left; reflexivity|].
        exists v. split; assumption.
    + rewrite IH. split.
      * intros H y [<-|Hin]; [|apply H, Hin].
        intros [w [Hw Hwt]]. rewrite Hv in Hw. inversion Hw. subst w.
        congruence.
      * intros H y Hin. apply H. right. exact Hin.
Qed.

Lemma someFrom_ext_in {A : Type} (f g : A -> nat -> Completion Value) xs :
  forall i, (forall x j, In x xs -> f x j = g x j) ->
            someFrom f i xs = someFrom g i xs.
Proof.
  induction xs as [|x rest IH]; intros i Hfg; simpl; [reflexivity|].
  rewrite Hfg by (left; reflexivity).
  destruct (g x i) as [v|e]; [|reflexivity].
  destruct (truthy v); [reflexivity|].
  apply IH. intros y j Hin. apply Hfg. right. exact Hin.
Qed.

Lemma forOfReturnFalse_ext_in {A : Type} (f g : A -> Completion Value) xs :
  (forall x, In x xs -> f x = g x) ->
  forOfReturnFalse f xs = forOfReturnFalse g xs.
Proof.
  induction xs as [|x rest IH]; intros Hfg; simpl; [reflexivity|].
  rewrite Hfg by (left; reflexivity).
  destruct (g x) as [v|e]; [|reflexivity].
  destruct (truthy v); [reflexivity|].
  apply IH. intros y Hin. apply Hfg. right. exact Hin.
Qed.

(** Loops over boolean tests are the boolean quantifiers. *)
Lemma someFrom_retBool {A : Type} (p : A -> bool) xs :
  forall i, someFrom (fun x _ => retBool (p x)) i xs = retBool (existsb p xs).
Proof.
  induction xs as [|x rest IH]; intros i; simpl; [reflexivity|].
  destruct (p x); simpl; [reflexivity | apply IH].
Qed.

Lemma forOfReturnFalse_retBool {A : Type} (p : A -> bool) xs :
  forOfReturnFalse (fun x => retBool (negb (p x))) xs = retBool (forallb p xs).
Proof.
  induction xs as [|x rest IH]; simpl; [reflexivity|].
  destruct (p x); simpl; [apply IH | reflexivity].
Qed.

Section DeepEqualShapes.

Variable callEquals : methodId -> Value -> Value -> Completion Value.

(** One step of [deepEqual] at a positive depth: the comparisons nested in it
    are [deepEqual] at the depth below. *)
Lemma deepEqual_unfold (a b : Value) (depth : Z) :
  (0 < depth)%Z ->
  deepEqual callEquals a b depth
  = deepEqualAux callEquals (S (Z.to_nat (depth - 1))) a b depth.
Proof.
  intros Hd. unfold deepEqual. f_equal. lia.
Qed.

(** A comparison with a primitive on either side is [===]. *)
Lemma deepEqual_primitive (a b : Value) (depth : Z) :
  (0 < depth)%Z -> isObject a && isObject b = false ->
  deepEqual callEquals a b depth = Normal (VBoolean (strictEquals a b)).
Proof.
  intros Hd Hprim. rewrite deepEqual_unfold by exact Hd.
  cbn [deepEqualAux]. destruct (Z.leb_spec depth 0); [lia|].
  destruct (strictEquals a b) eqn:Hs; [reflexivity|].
  destruct a as [| | | | | | |ra ma sa], b as [| | | | | | |rb mb sb];
    try discriminate; try reflexivity;
    try (destruct sa as [| | | | | |[|] fa]; reflexivity);
    try (destruct sb as [| | | | | |[|] fb]; reflexivity).
Qed.

End DeepEqualShapes.

(** X1.  A comparison in which either side is a primitive (a boolean, a
    number, a string, a bigint, a symbol, [null] or [undefined]) is decided by
    [===] alone at every positive depth: no coercion, [null] differs from
    [undefined], and no [equals] method is called. *)
Theorem X1_deepEqual_primitive_is_strict
    (ce : methodId -> Value -> Value -> Completion Value)
    (a b : Value) (depth : Z) :
  (0 < depth)%Z -> isObject a && isObject b = false ->
  deepEqual ce a b depth = Normal (VBoolean (strictEquals a b)).
Proof. apply deepEqual_primitive. Qed.

Lemma X1_deepEqual_primitive_is_strict_witness :
  deepEqual someEquals (VString "1") (num 1) defaultDepth
  = Normal (VBoolean false)
  /\ deepEqual someEquals (classInstance 1 (Some 0) []) VNull 1
     = Normal (VBoolean false)
  /\ deepEqual someEquals (VString "ab") (VString "ab") 1
     = Normal (VBoolean true).
Proof.
  split; [|split].
  - apply (X1_deepEqual_primitive_is_strict someEquals (VString "1") (num 1));
      reflexivity.
  - apply (X1_deepEqual_primitive_is_strict someEquals
             (classInstance 1 (Some 0) []) VNull); reflexivity.
  - apply (X1_deepEqual_primitive_is_strict someEquals (VString "ab")
             (VString "ab")); reflexivity.
Defined.

(** X2.  Two distinct containers of the same kind and of different sizes
    (arrays of different lengths, Maps or Sets of different sizes, plain
    objects with different numbers of keys) are unequal at every depth,
    whatever they hold and whatever [equals] methods they carry. *)
Theorem X2_deepEqual_size_mismatch
    (ce : methodId -> Value -> Value -> Completion Value)
    (r r' : ref) (m m' : option methodId) (depth : Z) :
  r <> r' ->
  (forall xs ys, length xs <> length ys ->
     deepEqual ce (VObject r m (SArray xs)) (VObject r' m' (SArray ys)) depth
     = Normal (VBoolean false))
  /\ (forall ea eb, length ea <> length eb ->
      deepEqual ce (VObject r m (SMap ea)) (VObject r' m' (SMap eb)) depth
      = Normal (VBoolean false))
  /\ (forall sa sb, length sa <> length sb ->
      deepEqual ce (VObject r m (SSet sa)) (VObject r' m' (SSet sb)) depth
      = Normal (VBoolean false))
  /\ (forall fa fb, length fa <> length fb ->
      deepEqual ce (VObject r m (SPlain fa)) (VObject r' m' (SPlain fb)) depth
      = Normal (VBoolean false)).
Proof.
  intros Hr.
  assert (Nat.eqb r r' = false) as Hrr by (apply Nat.eqb_neq; exact Hr).
  destruct (Z.leb_spec depth 0) as [Hd|Hd].
  { repeat split; intros; apply deepEqual_depth_exhausted, Hd. }
  repeat split; intros xs ys Hlen;
    rewrite deepEqual_unfold by exact Hd;
    cbn [deepEqualAux]; (destruct (Z.leb_spec depth 0); [lia|]);
    simpl; rewrite Hrr; simpl;
    rewrite ?length_map;
    apply Nat.eqb_neq in Hlen; rewrite Hlen; reflexivity.
Qed.

Lemma X2_deepEqual_size_mismatch_witness :
  deepEqual someEquals (VObject 1 (Some 0) (SArray [num 1; num 2; num 3]))
            (VObject 2 None (SArray [num 1; num 2])) defaultDepth
  = Normal (VBoolean false)
  /\ deepEqual someEquals
       (VObject 1 None (SPlain [("a"%string, num 1); ("b"%string, num 2)]))
       (VObject 2 None (SPlain [("a"%string, num 1)])) defaultDepth
     = Normal (VBoolean false).
Proof.
  destruct (X2_deepEqual_size_mismatch someEquals 1 2 (Some 0) None defaultDepth
              ltac:(discriminate)) as [Harr _].
  destruct (X2_deepEqual_size_mismatch someEquals 1 2 None None defaultDepth
              ltac:(discriminate)) as [_ [_ [_ Hplain]]].
  split.
  - apply Harr. simpl. discriminate.
  - apply Hplain. simpl. discriminate.
Defined.

(** X3.  Two [Date] objects are equal exactly when they are the same object
    or their epoch times are equal numbers, and two [RegExp] objects exactly
    when they are the same object or print the same: at every positive depth,
    and without any [equals] method being called.  Two invalid dates, whose
    time is [NaN], are therefore equal only by identity. *)
Theorem X3_deepEqual_date_regexp
    (ce : methodId -> Value -> Value -> Completion Value)
    (r r' : ref) (m m' : option methodId) (depth : Z) :
  (0 < depth)%Z ->
  (forall t t',
     deepEqual ce (VObject r m (SDate t)) (VObject r' m' (SDate t')) depth
     = Normal (VBoolean (Nat.eqb r r' || SFeqb t t')))
  /\ (forall s s',
      deepEqual ce (VObject r m (SRegExp s)) (VObject r' m' (SRegExp s')) depth
      = Normal (VBoolean (Nat.eqb r r' || String.eqb s s'))).
Proof.
  intros Hd. split; intros t t'; rewrite deepEqual_unfold by exact Hd;
    cbn [deepEqualAux]; (destruct (Z.leb_spec depth 0); [lia|]);
    simpl; destruct (Nat.eqb r r'); reflexivity.
Qed.

Lemma X3_deepEqual_date_regexp_witness :
  deepEqual someEquals (VObject 1 (Some 0) (SDate S754_nan))
            (VObject 2 None (SDate S754_nan)) defaultDepth
  = Normal (VBoolean false)
  /\ deepEqual someEquals (VObject 1 (Some 0) (SRegExp "/a+/g"))
               (VObject 2 None (SRegExp "/a+/g")) 1
     = Normal (VBoolean true).
Proof.
  destruct (X3_deepEqual_date_regexp someEquals 1 2 (Some 0) None defaultDepth
              eq_refl) as [Hdate _].
  destruct (X3_deepEqual_date_regexp someEquals 1 2 (Some 0) None 1 eq_refl)
    as [_ Hre].
  split; [apply Hdate | apply Hre].
Defined.

(** X4.  For two distinct arrays of which the first holds primitives only,
    the comparison is the fast path: it is a boolean at every positive depth
    (none of the depth is used), true exactly when the lengths agree and the
    items are [===] position by position; an object in the second array is
    never traversed, and a [NaN] item makes the arrays unequal. *)
Theorem X4_deepEqual_primitive_array
    (ce : methodId -> Value -> Value -> Completion Value)
    (r r' : ref) (m m' : option methodId) (xs ys : list Value) (depth : Z) :
  (0 < depth)%Z -> r <> r' ->
  forallb isPrimitiveItem xs = true ->
  exists verdict,
    deepEqual ce (VObject r m (SArray xs)) (VObject r' m' (SArray ys)) depth
    = Normal (VBoolean verdict)
    /\ (verdict = true <->
        length xs = length ys
        /\ forall i, i < length xs ->
             strictEquals (nth i xs VUndefined) (nth i ys VUndefined) = true).
Proof.
  intros Hd Hr Hprim.
  apply Nat.eqb_neq in Hr.
  rewrite deepEqual_unfold by exact Hd.
  cbn [deepEqualAux]. destruct (Z.leb_spec depth 0); [lia|].
  simpl. rewrite Hr. simpl.
  destruct (Nat.eqb_spec (length xs) (length ys)) as [Hlen|Hlen]; simpl.
  - rewrite Hprim.
    set (cb := fun (val : Value) (i : nat) =>
                 retBool (strictEquals val (nth i ys VUndefined))).
    destruct (everyFrom_boolean cb xs 0) as [verdict Hv].
    { intros x j. eexists. reflexivity. }
    exists verdict. split; [exact Hv|].
    rewrite <- holds_boolean. unfold every in *. rewrite <- Hv.
    rewrite (everyFrom_holds cb VUndefined). subst cb. simpl.
    split.
    + intros Hall. split; [exact Hlen|].
      intros i Hi. apply holds_retBool, Hall, Hi.
    + intros [_ Hall] j Hj. apply holds_retBool, Hall, Hj.
  - exists false. split; [reflexivity|].
    split; [discriminate | intros [Heq _]; congruence].
Qed.

Lemma X4_deepEqual_primitive_array_witness :
  exists verdict,
    deepEqual someEquals
      (VObject 1 None (SArray [num 1; NaN]))
      (VObject 2 None (SArray [num 1; NaN])) 1
    = Normal (VBoolean verdict)
    /\ (verdict = true <->
        length [num 1; NaN] = length [num 1; NaN]
        /\ forall i, i < length [num 1; NaN] ->
             strictEquals (nth i [num 1; NaN] VUndefined)
                          (nth i [num 1; NaN] VUndefined) = true).
Proof.
  apply (X4_deepEqual_primitive_array someEquals 1 2 None None
           [num 1; NaN] [num 1; NaN] 1).
  - reflexivity.
  - discriminate.
  - reflexivity.
Defined.

(** X5.  For two distinct Sets of which the first holds primitives only, the
    comparison at a depth of at least 2 is true exactly when the sizes agree
    and every member of the first is [===] to some member of the second, so
    that a Set holding [NaN] is unequal to every other Set.  At depth 1 the
    members are compared with no depth left, and only two empty Sets are
    equal. *)
Theorem X5_deepEqual_primitive_set
    (ce : methodId -> Value -> Value -> Completion Value)
    (r r' : ref) (m m' : option methodId) (sa sb : list Value) (depth : Z) :
  (0 < depth)%Z -> r <> r' ->
  forallb (fun x => negb (isObject x)) sa = true ->
  deepEqual ce (VObject r m (SSet sa)) (VObject r' m' (SSet sb)) depth
  = Normal (VBoolean
              (Nat.eqb (length sa) (length sb)
               && forallb (fun x => (1 <? depth)%Z
                                    && existsb (strictEquals x) sb) sa)).
Proof.
  intros Hd Hr Hprim.
  apply Nat.eqb_neq in Hr.
  rewrite deepEqual_unfold by exact Hd.
  cbn [deepEqualAux]. destruct (Z.leb_spec depth 0); [lia|].
  simpl. rewrite Hr. simpl.
  destruct (Nat.eqb (length sa) (length sb)); simpl; [|reflexivity].
  etransitivity;
    [|exact (forOfReturnFalse_retBool
               (fun x => (1 <? depth)%Z && existsb (strictEquals x) sb) sa)].
  apply forOfReturnFalse_ext_in. intros item Hin.
  rewrite forallb_forall in Hprim. specialize (Hprim item Hin).
  apply negb_true_iff in Hprim.
  destruct (Z.ltb_spec 1 depth) as [Hdeep|Hshallow]; simpl.
  - unfold some.
    rewrite (someFrom_ext _ (fun bItem _ => retBool (strictEquals item bItem))).
    + rewrite someFrom_retBool. reflexivity.
    + intros bItem j.
      apply (deepEqual_primitive ce item bItem (depth - 1)); [lia|].
      rewrite Hprim. reflexivity.
  - unfold some.
    rewrite (someFrom_ext _ (fun bItem _ => retBool false)).
    + rewrite (someFrom_retBool (fun _ => false)).
      replace (existsb (fun _ : Value => false) sb) with false; [reflexivity|].
      clear. induction sb; simpl; auto.
    + intros bItem j.
      apply (deepEqual_depth_exhausted ce item bItem (depth - 1)). lia.
Qed.

Lemma X5_deepEqual_primitive_set_witness :
  deepEqual someEquals (VObject 1 None (SSet [num 1; num 2; num 3]))
            (VObject 2 None (SSet [num 3; num 1; num 2])) defaultDepth
  = Normal (VBoolean true)
  /\ deepEqual someEquals (VObject 1 None (SSet [NaN]))
               (VObject 2 None (SSet [NaN])) defaultDepth
     = Normal (VBoolean false)
  /\ deepEqual someEquals (VObject 1 None (SSet [num 1]))
               (VObject 2 None (SSet [num 1])) 1
     = Normal (VBoolean false).
Proof.
  split; [|split].
  - apply (X5_deepEqual_primitive_set someEquals 1 2 None None
             [num 1; num 2; num 3] [num 3; num 1; num 2] defaultDepth);
      [reflexivity | discriminate | reflexivity].
  - apply (X5_deepEqual_primitive_set someEquals 1 2 None None
             [NaN] [NaN] defaultDepth);
      [reflexivity | discriminate | reflexivity].
  - apply (X5_deepEqual_primitive_set someEquals 1 2 None None
             [num 1] [num 1] 1);
      [reflexivity | discriminate | reflexivity].
Defined.

(** ** More depth never loses an equality *)

Lemma everyFrom_mono {A : Type} (f g : A -> nat -> Completion Value) xs :
  forall i,
    (forall x j, isBoolean (f x j)) ->
    (forall x j, f x j = Normal (VBoolean true) ->
                 g x j = Normal (VBoolean true)) ->
    everyFrom f i xs = Normal (VBoolean true) ->
    everyFrom g i xs = Normal (VBoolean true).
Proof.
  induction xs as [|x rest IH]; intros i Hf Hfg Hev; simpl in *;
    [reflexivity|].
  destruct (isBoolean_cases _ (Hf x i)) as [Hx|Hx]; rewrite Hx in Hev.
  - rewrite (Hfg x i Hx). simpl in *. apply IH; assumption.
  - simpl in Hev. discriminate.
Qed.

Lemma someFrom_mono {A : Type} (f g : A -> nat -> Completion Value) xs :
  forall i,
    (forall x j, isBoolean (f x j)) -> (forall x j, isBoolean (g x j)) ->
    (forall x j, f x j = Normal (VBoolean true) ->
                 g x j = Normal (VBoolean true)) ->
    someFrom f i xs = Normal (VBoolean true) ->
    someFrom g i xs = Normal (VBoolean true).
Proof.
  induction xs as [|x rest IH]; intros i Hf Hg Hfg Hev; simpl in *;
    [discriminate|].
  destruct (isBoolean_cases _ (Hf x i)) as [Hx|Hx]; rewrite Hx in Hev.
  - rewrite (Hfg x i Hx). reflexivity.
  - simpl in Hev.
    destruct (isBoolean_cases _ (Hg x i)) as [Hy|Hy]; rewrite Hy; simpl;
      [reflexivity|].
    apply IH; assumption.
Qed.

Lemma forOfReturnFalse_anti {A : Type} (f g : A -> Completion Value) xs :
  (forall x, isBoolean (f x)) -> (forall x, isBoolean (g x)) ->
  (forall x, g x = Normal (VBoolean true) -> f x = Normal (VBoolean true)) ->
  forOfReturnFalse f xs = Normal (VBoolean true) ->
  forOfReturnFalse g xs = Normal (VBoolean true).
Proof.
  intros Hf Hg Hgf. induction xs as [|x rest IH]; intros Hev; simpl in *;
    [reflexivity|].
  destruct (isBoolean_cases _ (Hf x)) as [Hx|Hx]; rewrite Hx in Hev;
    simpl in Hev; [discriminate|].
  destruct (isBoolean_cases _ (Hg x)) as [Hy|Hy].
  - rewrite (Hgf x Hy) in Hx. discriminate.
  - rewrite Hy. simpl. apply IH, Hev.
Qed.

Lemma notC_true (c : Completion Value) :
  isBoolean c ->
  (notC c = Normal (VBoolean true) <-> c = Normal (VBoolean false)).
Proof.
  intros [[|] ->]; simpl; split; congruence.
Qed.

Section DepthMonotone.

Variable callEquals : methodId -> Value -> Value -> Completion Value.
Hypothesis equals_boolean : forall m x y, isBoolean (callEquals m x y).

Lemma deepEqual_boolean (a b : Value) (depth : Z) :
  isBoolean (deepEqual callEquals a b depth).
Proof. apply deepEqualAux_boolean, equals_boolean. Qed.

Lemma deepEqual_monotone_aux (n : nat) :
  forall a b d d',
    Z.to_nat d <= n -> (d <= d')%Z ->
    deepEqual callEquals a b d = Normal (VBoolean true) ->
    deepEqual callEquals a b d' = Normal (VBoolean true).
Proof.
  induction n as [|n IH]; intros a b d d' Hn Hdd Heq.
  - rewrite deepEqual_depth_exhausted in Heq by lia. discriminate.
  - destruct (Z.leb_spec d 0) as [Hd|Hd].
    { rewrite deepEqual_depth_exhausted in Heq by lia. discriminate. }
    assert (forall x y,
              deepEqualAux callEquals (Z.to_nat (d - 1)) x y (d - 1)
              = Normal (VBoolean true) ->
              deepEqualAux callEquals (Z.to_nat (d' - 1)) x y (d' - 1)
              = Normal (VBoolean true)) as Hrec.
    { intros x y. apply (IH x y (d - 1)%Z (d' - 1)%Z); lia. }
    assert (forall k x y dd, isBoolean (deepEqualAux callEquals k x y dd))
      as Hbool by (intros; apply deepEqualAux_boolean, equals_boolean).
    rewrite deepEqual_unfold in Heq by lia.
    rewrite deepEqual_unfold by lia.
    cbn [deepEqualAux] in *.
    destruct (Z.leb_spec d 0); [lia|]. destruct (Z.leb_spec d' 0); [lia|].
    destruct (strictEquals a b); [reflexivity|].
    destruct (isNullish a || isNullish b); [discriminate|].
    destruct (negb (typeTag_eqb (typeOf a) (typeOf b))); [discriminate|].
    destruct (negb (typeTag_eqb (typeOf a) TObject) &&
              negb (typeTag_eqb (typeOf a) TFunction)); [discriminate|].
    destruct (asDate a), (asDate b), (asRegExp a), (asRegExp b);
      try exact Heq;
      (destruct (truthy a && truthy b); [|discriminate]);
      (destruct (asArray a) as [xs|], (asArray b) as [ys|];
       [ destruct (negb (length xs =? length ys)); [discriminate|];
         destruct (forallb isPrimitiveItem xs); [exact Heq|];
         revert Heq; apply everyFrom_mono; intros; auto | | | ]);
      (destruct (asMap a) as [ea|], (asMap b) as [eb|];
       [ destruct (negb (length ea =? length eb)); [discriminate|];
         revert Heq; apply forOfReturnFalse_anti;
         [ intros [key val]; destruct (negb (mapHas eb key));
           auto with deq
         | intros [key val]; destruct (negb (mapHas eb key));
           auto with deq
         | intros [key val]; destruct (negb (mapHas eb key)); [auto|];
           rewrite !notC_true by apply Hbool;
           intros Hfalse;
           destruct (isBoolean_cases _ (Hbool (Z.to_nat (d - 1)) val
                                          (mapGet eb key) (d - 1)%Z))
             as [Ht|Ht]; [|exact Ht];
           rewrite (Hrec _ _ Ht) in Hfalse; discriminate ] | | | ]);
      (destruct (asSet a) as [sa|], (asSet b) as [sb|];
       [ destruct (negb (length sa =? length sb)); [discriminate|];
         revert Heq; apply forOfReturnFalse_anti;
         [ intros item; apply notC_boolean, isBoolean_returns,
             someFrom_boolean; intros; apply isBoolean_returns, Hbool
         | intros item; apply notC_boolean, isBoolean_returns,
             someFrom_boolean; intros; apply isBoolean_returns, Hbool
         | intros item;
           rewrite !notC_true
             by (apply someFrom_boolean; intros; apply isBoolean_returns, Hbool);
           intros Hfalse;
           match goal with
           | |- ?s = _ =>
               assert (isBoolean s) as Hs
                 by (apply someFrom_boolean; intros;
                     apply isBoolean_returns, Hbool);
               destruct (isBoolean_cases _ Hs) as [Ht|Ht]; [|exact Ht]
           end;
           exfalso;
           apply (someFrom_mono _
                    (fun bItem _ =>
                       deepEqualAux callEquals (Z.to_nat (d' - 1)) item bItem
                                    (d' - 1))) in Ht;
           [ unfold some in Hfalse; rewrite Ht in Hfalse; discriminate
           | intros; apply Hbool | intros; apply Hbool
           | intros; apply Hrec; assumption ] ] | | | ]);
      (destruct (asPlain a) as [fa|], (asPlain b) as [fb|];
       [ destruct (negb (length (map fst fa) =? length (map fst fb)));
         [discriminate|];
         revert Heq; apply everyFrom_mono; intros; auto | | | ]);
      exact Heq.
Qed.

End DepthMonotone.

(** X6.  When the [equals] methods answer booleans, a larger depth never
    loses an equality: values found equal at one depth are found equal at
    every larger depth. *)
Theorem X6_deepEqual_depth_monotone
    (ce : methodId -> Value -> Value -> Completion Value)
    (a b : Value) (d d' : Z) :
  (forall m x y, isBoolean (ce m x y)) ->
  (d <= d')%Z ->
  deepEqual ce a b d = Normal (VBoolean true) ->
  deepEqual ce a b d' = Normal (VBoolean true).
Proof.
  intros Hce Hdd. apply (deepEqual_monotone_aux ce Hce (Z.to_nat d)); auto.
Qed.

Lemma X6_deepEqual_depth_monotone_witness :
  let a := VObject 1 None (SSet [VObject 2 None (SArray [num 1; VObject 3 None (SPlain [])])]) in
  let b := VObject 4 None (SSet [VObject 5 None (SArray [num 1; VObject 6 None (SPlain [])])]) in
  deepEqual parityEquals a b 3 = Normal (VBoolean true)
  /\ deepEqual parityEquals a b defaultDepth = Normal (VBoolean true).
Proof.
  intros a b.
  assert (deepEqual parityEquals a b 3 = Normal (VBoolean true)) as H3
    by reflexivity.
  split; [exact H3|].
  apply (X6_deepEqual_depth_monotone parityEquals a b 3 defaultDepth).
  - intros m x y. exists (Nat.even m). reflexivity.
  - vm_compute. discriminate.
  - exact H3.
Defined.

(** * Further properties of the cache cell *)

Section CellCalls.

Variable callEquals : methodId -> Value -> Value -> Completion Value.

(** Any value but [NaN] is equal to itself at a positive depth. *)
Lemma deepEqual_same (x : Value) (depth : Z) :
  isNaN x = false -> (0 < depth)%Z ->
  deepEqual callEquals x x depth = Normal (VBoolean true).
Proof.
  intros Hx Hd. rewrite deepEqual_unfold by exact Hd.
  cbn [deepEqualAux]. destruct (Z.leb_spec depth 0); [lia|].
  rewrite (strictEquals_refl x Hx). reflexivity.
Qed.

(** [NaN] is equal to nothing. *)
Lemma deepEqual_NaN (x y : Value) (depth : Z) :
  isNaN x = true -> deepEqual callEquals x y depth = Normal (VBoolean false).
Proof.
  intros Hx.
  destruct (Z.leb_spec depth 0) as [Hd|Hd];
    [apply deepEqual_depth_exhausted; exact Hd|].
  rewrite deepEqual_primitive; [|exact Hd|].
  - destruct x as [| | |f| | | |]; try discriminate.
    destruct f; try discriminate. destruct y; reflexivity.
  - destruct x; try discriminate. reflexivity.
Qed.

Lemma hitCondition_argsAgree (c : Cell) (args : list Value) :
  hitCondition callEquals c args
  <-> calledOnce c = true /\ argsAgree callEquals (previousArgs c) args.
Proof. unfold hitCondition, argsAgree. tauto. Qed.

Lemma argsAgree_same (args : list Value) :
  forallb (fun x => negb (isNaN x)) args = true ->
  argsAgree callEquals args args.
Proof.
  intros Hargs. split; [reflexivity|]. intros i Hi.
  rewrite forallb_forall in Hargs.
  rewrite deepEqual_same.
  - apply holds_boolean. reflexivity.
  - apply negb_true_iff, Hargs, nth_In, Hi.
  - reflexivity.
Qed.

Lemma argsAgree_NaN (stored args : list Value) :
  existsb isNaN args = true -> ~ argsAgree callEquals stored args.
Proof.
  intros Hnan [_ Hall]. apply existsb_exists in Hnan.
  destruct Hnan as [x [Hin Hx]].
  destruct (In_nth _ _ VUndefined Hin) as [i [Hi Hnth]].
  specialize (Hall i Hi). rewrite Hnth, (deepEqual_NaN _ _ _ Hx) in Hall.
  apply holds_boolean in Hall. discriminate.
Qed.

End CellCalls.

(** On a method that only computes, a call that returned, repeated at once
    with arguments free of [NaN], is a hit. *)
Lemma memoizedFn_repeat_hits
    (ce : methodId -> Value -> Value -> Completion Value)
    (originalMethod : Method) (this : objId) (args : list Value) (c : Cell)
    (res : Value) :
  forallb (fun x => negb (isNaN x)) args = true ->
  outcome (memoizedFn ce originalMethod this args c) = Normal res ->
  memoizedFn ce originalMethod this args
             (finalState (memoizedFn ce originalMethod this args c))
  = (Normal res, finalState (memoizedFn ce originalMethod this args c), []).
Proof.
  intros Hargs Hout.
  rewrite (memoizedFn_unfold ce originalMethod this args c) in *.
  destruct (isSame ce c args) as [same|e] eqn:Hsame; [|discriminate].
  destruct (truthy same) eqn:Ht.
  - fin. inversion Hout. subst res.
    rewrite memoizedFn_unfold, Hsame, Ht. reflexivity.
  - destruct (originalMethod this args) as [r|e] eqn:Hr; [|discriminate].
    fin. inversion Hout. subst res.
    set (c' := {| previousArgs := args; calledOnce := true;
                  cachedResult := r |}).
    assert (holds (isSame ce c' args)) as [v [Hv Hvt]].
    { apply isSame_holds, hitCondition_argsAgree.
      split; [reflexivity | apply argsAgree_same, Hargs]. }
    rewrite memoizedFn_unfold, Hv, Hvt. reflexivity.
Qed.

(** X7.  Calling again with the same arguments is a hit, for a method that
    does not call back into its memoized function or its [clearMemo] while it
    runs: when a call returns a value and none of its arguments is [NaN], the
    same call repeated at once returns that value again, invokes nothing and
    leaves the cell as it is, whether the first call was itself a hit or a
    miss. *)
Theorem X7_memoizedFn_repeat_hits
    (ce : methodId -> Value -> Value -> Completion Value)
    (stack : nat) (body : MethodBody) (originalMethod : Method)
    (this : objId) (args : list Value) (c : Cell) (res : Value) :
  nonReentrant body originalMethod ->
  forallb (fun x => negb (isNaN x)) args = true ->
  outcome (memoizedFnReentrant ce (S stack) body this args c) = Normal res ->
  memoizedFnReentrant ce (S stack) body this args
    (finalState (memoizedFnReentrant ce (S stack) body this args c))
  = (Normal res,
     finalState (memoizedFnReentrant ce (S stack) body this args c), []).
Proof.
  intros Hplain Hargs Hout.
  rewrite !(memoizedFnReentrant_plain ce stack body originalMethod) in *
    by exact Hplain.
  apply memoizedFn_repeat_hits; assumption.
Qed.

Lemma X7_memoizedFn_repeat_hits_witness :
  let args := [VObject 1 (Some 0) (SOther false []); num 2] in
  let r := memoizedFnReentrant someEquals 3 (plainBody whoAmI) 7 args newCell in
  memoizedFnReentrant someEquals 3 (plainBody whoAmI) 7 args (finalState r)
  = (Normal (num 7), finalState r, []).
Proof.
  intros args r.
  apply (X7_memoizedFn_repeat_hits someEquals 2 (plainBody whoAmI) whoAmI 7
           args newCell (num 7) (nonReentrant_plainBody whoAmI));
    reflexivity.
Defined.

(** For a method that calls back, the repeated call need not be a hit: the
    recursive [fib] of 3, called again at once, finds the arguments of its
    last nested call in the cell and invokes the method five times again. *)
Example reentrant_repeat_misses :
  let r := memoizedFnReentrant noEquals 10 fibBody 0 [num 3] newCell in
  let r' := memoizedFnReentrant noEquals 10 fibBody 0 [num 3] (finalState r) in
  outcome r' = Normal (num 2) /\ length (calls r') = 5.
Proof. vm_compute. split; reflexivity. Qed.

(** X8.  A call with [NaN] among its arguments is never served from the
    cache: whatever the cell holds, when such a call returns a value the
    underlying method has been invoked for it, exactly once. *)
Theorem X8_memoizedFn_NaN_never_hits
    (ce : methodId -> Value -> Value -> Completion Value)
    (originalMethod : Method) (this : objId) (args : list Value) (c : Cell)
    (res : Value) :
  existsb isNaN args = true ->
  outcome (memoizedFn ce originalMethod this args c) = Normal res ->
  calls (memoizedFn ce originalMethod this args c)
  = [mkCall this args (Normal res)]
  /\ originalMethod this args = Normal res.
Proof.
  intros Hnan Hout.
  rewrite (memoizedFn_unfold ce originalMethod this args c) in *.
  destruct (isSame ce c args) as [same|e] eqn:Hsame; [|discriminate].
  destruct (truthy same) eqn:Ht.
  - exfalso. apply (argsAgree_NaN ce (previousArgs c) args Hnan).
    apply hitCondition_argsAgree, isSame_holds.
    exists same. rewrite Hsame. split; [reflexivity | exact Ht].
  - destruct (originalMethod this args) as [r|e]; [|discriminate].
    fin. inversion Hout. subst res. split; reflexivity.
Qed.

Lemma X8_memoizedFn_NaN_never_hits_witness :
  let c := {| previousArgs := [num 1; NaN]; calledOnce := true;
              cachedResult := num 10 |} in
  calls (memoizedFn noEquals whoAmI 7 [num 1; NaN] c)
  = [mkCall 7 [num 1; NaN] (Normal (num 7))]
  /\ whoAmI 7 [num 1; NaN] = Normal (num 7).
Proof.
  intros c.
  apply (X8_memoizedFn_NaN_never_hits noEquals whoAmI 7 [num 1; NaN] c (num 7));
    reflexivity.
Defined.

(** ** Histories of one cell *)

Section CellHistories.

Variable callEquals : methodId -> Value -> Value -> Completion Value.
Variable originalMethod : Method.
Variable this : objId.

Lemma runCell_invoke (args : list Value) (rest : list CellOp) (c : Cell) :
  runCell callEquals originalMethod this (Invoke args :: rest) c =
  let r := memoizedFn callEquals originalMethod this args c in
  let r' := runCell callEquals originalMethod this rest (finalState r) in
  (outcome r :: fst (fst r'), snd (fst r'), calls r ++ snd r').
Proof.
  simpl. unfold outcome, finalState, calls.
  destruct (memoizedFn callEquals originalMethod this args c) as [[r c1] log1].
  simpl.
  destruct (runCell callEquals originalMethod this rest c1) as [[rs c2] log2].
  reflexivity.
Qed.

Lemma runCell_clear (rest : list CellOp) (c : Cell) :
  runCell callEquals originalMethod this (Clear :: rest) c
  = runCell callEquals originalMethod this rest newCell.
Proof. reflexivity. Qed.

(** The comparison of the arguments is a boolean when the [equals] methods
    answer booleans. *)
Lemma isSame_boolean (c : Cell) (args : list Value) :
  (forall m x y, isBoolean (callEquals m x y)) ->
  isBoolean (isSame callEquals c args).
Proof.
  intros Hce. unfold isSame.
  destruct (calledOnce c); [|apply isBoolean_retBool].
  destruct (length (previousArgs c) =? length args);
    [|apply isBoolean_retBool].
  apply everyFrom_boolean. intros x j.
  apply isBoolean_returns, deepEqualAux_boolean, Hce.
Qed.

(** While the underlying method returns on the argument lists of [pool] and
    gives one result on those of them the cell takes for the same, the cell
    that has run holds the result of the method on the stored arguments, and
    a history with its arguments in [pool] returns what the method returns. *)
Lemma runCell_transparent (pool : list (list Value)) (ops : list CellOp) :
  (forall m x y, isBoolean (callEquals m x y)) ->
  (forall args, In args pool -> exists v, originalMethod this args = Normal v) ->
  (forall stored args,
     In stored pool -> In args pool ->
     argsAgree callEquals stored args ->
     originalMethod this args = originalMethod this stored) ->
  incl (invokedArgs ops) pool ->
  forall c,
    (calledOnce c = true ->
     In (previousArgs c) pool
     /\ originalMethod this (previousArgs c) = Normal (cachedResult c)) ->
    fst (fst (runCell callEquals originalMethod this ops c))
    = map (originalMethod this) (invokedArgs ops).
Proof.
  intros Hce Htotal Hresp.
  induction ops as [|[args|] rest IH]; intros Hincl c Hinv.
  - reflexivity.
  - assert (In args pool) as Hargs by (apply Hincl; left; reflexivity).
    assert (incl (invokedArgs rest) pool) as Hrest
      by (intros x Hx; apply Hincl; right; exact Hx).
    rewrite runCell_invoke. cbv zeta. cbn [fst snd invokedArgs map].
    rewrite memoizedFn_unfold.
    destruct (isBoolean_cases _ (isSame_boolean c args Hce)) as [Hs|Hs];
      rewrite Hs; simpl.
    + assert (hitCondition callEquals c args) as Hhit.
      { apply isSame_holds. rewrite Hs. apply holds_boolean. reflexivity. }
      apply hitCondition_argsAgree in Hhit. destruct Hhit as [Hrun Hagree].
      destruct (Hinv Hrun) as [Hstored Hres].
      fin. rewrite (Hresp _ _ Hstored Hargs Hagree), Hres. f_equal.
      apply IH; [exact Hrest | exact Hinv].
    + destruct (Htotal args Hargs) as [v Hv]. rewrite Hv. fin. f_equal.
      apply IH; [exact Hrest|]. intros _. split; [exact Hargs | exact Hv].
  - rewrite runCell_clear. cbn [invokedArgs]. apply IH; [exact Hincl|].
    discriminate.
Qed.



End CellHistories.

(** X9.  Memoization is transparent on a history whose method is well
    behaved on the arguments it is called with: if the method does not call
    back into its memoized function or its [clearMemo] while it runs, returns
    on each argument list of the history, gives one result on any two of them
    that the cell takes for the same, and the [equals] methods answer
    booleans, then through that history of calls and [clearMemo] on a new
    cell every call returns exactly what the method returns on its
    arguments. *)
Theorem X9_memoization_transparent
    (ce : methodId -> Value -> Value -> Completion Value)
    (stack : nat) (body : MethodBody) (originalMethod : Method)
    (this : objId) (ops : list CellOp) :
  nonReentrant body originalMethod ->
  (forall m x y, isBoolean (ce m x y)) ->
  (forall args, In args (invokedArgs ops) ->
     exists v, originalMethod this args = Normal v) ->
  (forall stored args,
     In stored (invokedArgs ops) -> In args (invokedArgs ops) ->
     argsAgree ce stored args ->
     originalMethod this args = originalMethod this stored) ->
  fst (fst (runCellReentrant ce (S stack) body this ops newCell))
  = map (originalMethod this) (invokedArgs ops).
Proof.
  intros Hplain Hce Htotal Hresp.
  rewrite (runCellReentrant_plain ce stack body originalMethod this ops Hplain).
  apply (runCell_transparent ce originalMethod this (invokedArgs ops));
    try assumption.
  - apply incl_refl.
  - discriminate.
Qed.

Lemma X9_memoization_transparent_witness :
  let o1 := VObject 1 None (SPlain [("a"%string, num 1)]) in
  let o2 := VObject 2 None (SPlain [("a"%string, num 1)]) in
  let o3 := VObject 3 None (SPlain [("a"%string, num 2)]) in
  let ops := [Invoke [o1]; Invoke [o2]; Invoke [o3]; Clear; Invoke [o1]] in
  fst (fst (runCellReentrant parityEquals 4 (plainBody readsFieldA) 7 ops
              newCell))
  = [Normal (num 1); Normal (num 1); Normal (num 2); Normal (num 1)].
Proof.
  intros o1 o2 o3 ops.
  apply (X9_memoization_transparent parityEquals 3 (plainBody readsFieldA)
           readsFieldA 7 ops (nonReentrant_plainBody readsFieldA)).
  - intros m x y. exists (Nat.even m). reflexivity.
  - intros args _. unfold readsFieldA.
    destruct (asPlain (nth 0 args VUndefined)); eexists; reflexivity.
  - intros stored args Hs Ha [_ Hagree]. simpl in Hs, Ha.
    destruct Hs as [<-|[<-|[<-|[<-|[]]]]];
      destruct Ha as [<-|[<-|[<-|[<-|[]]]]];
      try reflexivity;
      destruct (Hagree 0 ltac:(simpl; lia)) as [v [Hv Ht]];
      vm_compute in Hv; inversion Hv; subst v; discriminate.
Defined.



(** * Further properties of the decorator and the registry *)

(** X11.  The outcome of a call of the decorator is settled by the type of
    its target, then by the context or the descriptor, and the call never
    invokes the decorated method or getter.  With a function as target
    (a stage 3 method or getter, but also a class or a setter, and the
    constructor a legacy decorator receives for a static member), a context
    whose kind is neither getter nor method, or a key string in place of the
    context, ends with the usage error, and a missing context with a
    [TypeError].  With any other target (the prototype of the legacy
    protocol, but also the [undefined] of a stage 3 field and the object of a
    stage 3 accessor), a missing descriptor ends with a [TypeError], and a
    descriptor with neither a getter nor a function value with the usage
    error.  Every failure leaves the heap as it was; every other call returns
    a decorated member, and only a stage 3 method creates a cell at
    decoration time. *)
Theorem X11_memoized_dispatch (target : DecoratorTarget)
    (contextOrKey : ContextOrKey) (descriptor : option Descriptor) (h : Heap) :
  let r := memoizedCall target contextOrKey descriptor h in
  calls r = []
  /\ (endsWithUsageError target contextOrKey descriptor = true ->
      r = (Throw usageError, h, []))
  /\ (endsWithTypeError target contextOrKey descriptor = true ->
      r = (Throw typeError, h, []))
  /\ (endsWithUsageError target contextOrKey descriptor = false ->
      endsWithTypeError target contextOrKey descriptor = false ->
      exists d, outcome r = Normal d)
  /\ (finalState r <> h ->
      exists f name,
        target = TargetFunction f
        /\ contextOrKey = ContextObject KindMethod name).
Proof.
  destruct target as [f|];
    [destruct contextOrKey as [[| |] name|key|]
    |destruct descriptor as [[[get|] [[g|v]|]]|]];
    cbv zeta;
    unfold memoizedCall, memoized, createMemoizedMethod, bind, getState,
      modify, ret, throw; fin;
    repeat split; try discriminate; try congruence;
    try (intros; eexists; reflexivity);
    try (intros; do 2 eexists; split; reflexivity).
Qed.

Lemma X11_memoized_dispatch_witness :
  let method := {| descGet := None; descValue := Some (ValueFunction whoAmI) |} in
  memoizedCall (TargetFunction whoAmI) (PropertyKey "m") (Some method) ∅
  = (Throw usageError, ∅, [])
  /\ memoizedCall TargetOther (ContextObject KindOther "x") None ∅
     = (Throw typeError, ∅, [])
  /\ (exists d,
        outcome (memoizedCall TargetOther (PropertyKey "m") (Some method) ∅)
        = Normal d)
  /\ exists f name,
       TargetFunction whoAmI = TargetFunction f
       /\ ContextObject KindMethod "m" = ContextObject KindMethod name.
Proof.
  intros method.
  split; [|split; [|split]].
  - apply (X11_memoized_dispatch (TargetFunction whoAmI) (PropertyKey "m")
             (Some method) ∅).
    reflexivity.
  - apply (X11_memoized_dispatch TargetOther (ContextObject KindOther "x")
             None ∅).
    reflexivity.
  - apply (X11_memoized_dispatch TargetOther (PropertyKey "m") (Some method) ∅);
      reflexivity.
  - apply (X11_memoized_dispatch (TargetFunction whoAmI)
             (ContextObject KindMethod "m") None ∅).
    vm_compute. discriminate.
Defined.

Lemma atCell_frame {A : Type} (a b : nat) (m : M Cell A) (h : Heap) :
  b <> a -> finalState (atCell a m h) !! b = h !! b.
Proof.
  intros Hne. unfold atCell, finalState.
  destruct (m (default newCell (h !! a))) as [[r c] log]. simpl.
  apply lookup_insert_ne. congruence.
Qed.

Lemma atCell_calls {A : Type} (a : nat) (m : M Cell A) (h : Heap) :
  calls (atCell a m h) = calls (m (default newCell (h !! a)))
  /\ outcome (atCell a m h) = outcome (m (default newCell (h !! a))).
Proof.
  unfold atCell, calls, outcome.
  destruct (m (default newCell (h !! a))) as [[r c] log]. split; reflexivity.
Qed.

Lemma registeredCells_register (key : string) (a b : nat) (i : Instance) :
  In b (registeredCells (registerClearFn key a i)) ->
  b = a \/ In b (registeredCells i).
Proof.
  unfold registeredCells, registerClearFn. simpl.
  destruct (memoizedClearFns i) as [fns|]; simpl.
  - induction fns as [|[k c] rest IH]; simpl.
    + intros [<-|[]]. left. reflexivity.
    + destruct (String.eqb k key); simpl.
      * intros [<-|Hin]; [left; reflexivity | right; right; exact Hin].
      * intros [<-|Hin]; [right; left; reflexivity|].
        destruct (IH Hin) as [->|Hrest]; [left; reflexivity|].
        right. right. exact Hrest.
  - intros [<-|[]]. left. reflexivity.
Qed.

(** X12.  [createMemoizedMethod] makes a memoized function that starts cold
    in a cell of its own: the cell did not exist, no other cell changes,
    nothing is invoked, and the first call of the new function invokes the
    underlying method.  With an instance, the registry entry of the key
    points to the new cell, replacing an older entry of that key, and the
    entries of the other keys and the properties of the instance are as
    before. *)
Theorem X12_createMemoizedMethod_fresh
    (ce : methodId -> Value -> Value -> Completion Value)
    (originalMethod : Method) (key : string) (instance : option Instance)
    (h : Heap) :
  let r := createMemoizedMethod originalMethod key instance h in
  exists fn instance',
    r = (Normal (fn, instance'), <[cellAt fn := newCell]> h, [])
    /\ original fn = originalMethod
    /\ h !! cellAt fn = None
    /\ (forall this args,
          calls (callMemoized ce fn this args (finalState r))
          = [mkCall this args (originalMethod this args)])
    /\ match instance, instance' with
       | Some i, Some i' =>
           registryGet key i' = Some (cellAt fn)
           /\ (forall k, k <> key -> registryGet k i' = registryGet k i)
           /\ own i' = own i /\ proto i' = proto i /\ self i' = self i
       | None, None => True
       | _, _ => False
       end.
Proof.
  cbv zeta.
  unfold createMemoizedMethod, bind, getState, modify, ret. simpl.
  set (a := fresh (dom h)).
  assert (h !! a = None) as Hfresh.
  { apply not_elem_of_dom. apply is_fresh. }
  destruct instance as [i|]; simpl.
  - exists {| original := originalMethod; cellAt := a |},
           (Some (registerClearFn key a i)).
    repeat split; try assumption.
    + intros this args. unfold callMemoized.
      rewrite (proj1 (atCell_calls _ _ _)). fin.
      rewrite lookup_insert_eq. simpl.
      apply (memoizedFn_not_called ce originalMethod this args newCell).
      reflexivity.
    + apply registryGet_register_eq.
    + intros k Hk. apply registryGet_register_ne. exact Hk.
  - exists {| original := originalMethod; cellAt := a |}, None.
    repeat split; try assumption.
    intros this args. unfold callMemoized.
    rewrite (proj1 (atCell_calls _ _ _)). fin.
    rewrite lookup_insert_eq. simpl.
    apply (memoizedFn_not_called ce originalMethod this args newCell).
    reflexivity.
Qed.

Lemma cleared_frame (addrs : list nat) (a : nat) :
  forall h : Heap,
    ~ In a addrs ->
    foldl (fun h' b => <[b := newCell]> h') h addrs !! a = h !! a.
Proof.
  induction addrs as [|b rest IH]; intros h Hnin; [reflexivity|].
  simpl. rewrite IH by (intros Hin; apply Hnin; right; exact Hin).
  apply lookup_insert_ne. intros ->. apply Hnin. left. reflexivity.
Qed.

Lemma clearAllMemoized_unfold (i : Instance) (h : Heap) :
  clearAllMemoized i h
  = (Normal tt,
     foldl (fun h' b => <[b := newCell]> h') h (registeredCells i), []).
Proof.
  unfold clearAllMemoized, registeredCells.
  destruct (memoizedClearFns i) as [fns|]; [|reflexivity].
  apply forEach_clearMemoAt.
Qed.

(** X13.  [clearAllMemoized] never throws and never invokes an underlying
    method; it resets every cell the registry reaches and changes no other
    cell; with no registry at all it changes nothing; and clearing twice is
    the same as clearing once. *)
Theorem X13_clearAllMemoized_effect (i : Instance) (h : Heap) :
  let r := clearAllMemoized i h in
  outcome r = Normal tt
  /\ calls r = []
  /\ (forall a, In a (registeredCells i) -> finalState r !! a = Some newCell)
  /\ (forall a, ~ In a (registeredCells i) -> finalState r !! a = h !! a)
  /\ (memoizedClearFns i = None -> finalState r = h)
  /\ clearAllMemoized i (finalState r) = (Normal tt, finalState r, []).
Proof.
  cbv zeta. rewrite clearAllMemoized_unfold. fin.
  repeat split.
  - intros a Hin. apply cleared_lookup, Hin.
  - intros a Hnin. apply cleared_frame, Hnin.
  - intros Hnone. unfold registeredCells. rewrite Hnone. reflexivity.
  - rewrite clearAllMemoized_unfold. f_equal. f_equal.
    apply map_eq. intros a.
    destruct (in_dec Nat.eq_dec a (registeredCells i)) as [Hin|Hnin].
    + rewrite !cleared_lookup by exact Hin. reflexivity.
    + rewrite (cleared_frame _ a _ Hnin). reflexivity.
Qed.

Lemma X13_clearAllMemoized_effect_witness :
  let i := registerClearFn "m" 0 (newInstance 1 legacyClass) in
  let h : Heap := <[0 := {| previousArgs := [num 1]; calledOnce := true;
                            cachedResult := num 2 |}]>
                    (<[1 := {| previousArgs := [num 3]; calledOnce := true;
                               cachedResult := num 4 |}]> ∅) in
  finalState (clearAllMemoized i h) !! 0 = Some newCell
  /\ finalState (clearAllMemoized i h) !! 1 = h !! 1
  /\ finalState (clearAllMemoized (newInstance 1 legacyClass) h) = h.
Proof.
  intros i h.
  destruct (X13_clearAllMemoized_effect i h) as [_ [_ [Hin [Hout _]]]].
  destruct (X13_clearAllMemoized_effect (newInstance 1 legacyClass) h)
    as [_ [_ [_ [_ [Hnone _]]]]].
  split; [|split].
  - apply Hin. left. reflexivity.
  - apply Hout. intros [Heq|[]]. discriminate.
  - apply Hnone. reflexivity.
Defined.

(** X14.  Functions and registry never drift apart: on a new instance of any
    well-formed class, after any history of reads, calls and clears, every
    memoized function the instance owns is the one of the legacy method of
    that name and is registered under that name with its own cell, every own
    value comes from a getter of that name, and nothing is registered under a
    name the instance has no property for; the class and the identity of the
    instance are unchanged. *)
Theorem X14_registry_consistent
    (ce : methodId -> Value -> Value -> Completion Value)
    (acts : list Action) (id : objId) (class : gmap string Decorated)
    (h : Heap) :
  wfProto class ->
  let w := fst (runActions ce acts {| obj := newInstance id class; heap := h |}) in
  Consistent (obj w) /\ proto (obj w) = class /\ self (obj w) = id.
Proof.
  intros Hwf w.
  destruct (runActions_invariant ce acts
              {| obj := newInstance id class; heap := h |} Hwf
              (Consistent_newInstance id class)) as [Hp [Hs [Hc _]]].
  repeat split; assumption.
Qed.

Lemma X14_registry_consistent_witness :
  let w := fst (runActions noEquals
                  [CallMethod "m" [num 1]; Read "g"; ClearAll; Read "n"]
                  {| obj := newInstance 3 legacyClass; heap := ∅ |}) in
  Consistent (obj w) /\ proto (obj w) = legacyClass /\ self (obj w) = 3.
Proof.
  apply (X14_registry_consistent noEquals
           [CallMethod "m" [num 1]; Read "g"; ClearAll; Read "n"]
           3 legacyClass ∅ wfProto_legacyClass).
Defined.

(** ** Cells of other objects *)

Section Isolation.

Variable callEquals : methodId -> Value -> Value -> Completion Value.

Variable a : nat.

Lemma fresh_ne (h : Heap) : is_Some (h !! a) -> fresh (dom h) <> a.
Proof.
  intros Hsome Heq. apply (is_fresh (dom h)). rewrite Heq.
  apply elem_of_dom. exact Hsome.
Qed.

Lemma getProperty_avoid (key : string) (w : World) :
  is_Some (heap w !! a) -> cellsAvoid a (obj w) -> classAvoids a (proto (obj w)) ->
  heap (finalState (getProperty key w)) !! a = heap w !! a
  /\ cellsAvoid a (obj (finalState (getProperty key w)))
  /\ forall fn, outcome (getProperty key w) = Normal (PMemoized fn) ->
                cellAt fn <> a.
Proof.
  intros Hsome [Hown Hreg] Hclass. rewrite getProperty_unfold.
  destruct (own (obj w) !! key) as [p|] eqn:Hp.
  { fin. repeat split; try assumption.
    intros fn Hfn. inversion Hfn. subst p. eapply Hown, Hp. }
  destruct (proto (obj w) !! key) as [[target name|fn|target name|value name]|]
    eqn:Hproto.
  - destruct (target (self (obj w)) []); fin;
      repeat split; try assumption; try discriminate.
    intros k fn Hk. simpl in Hk. destruct (decide (name = k)) as [<-|Hne].
    + rewrite lookup_insert_eq in Hk. discriminate.
    + rewrite lookup_insert_ne in Hk by exact Hne. eapply Hown, Hk.
  - fin. repeat split; try assumption.
    intros fn' Hfn. inversion Hfn. subst fn'. eapply Hclass, Hproto.
  - destruct (target (self (obj w)) []); fin;
      repeat split; try assumption; try discriminate.
    intros k fn Hk. simpl in Hk. destruct (decide (name = k)) as [<-|Hne].
    + rewrite lookup_insert_eq in Hk. discriminate.
    + rewrite lookup_insert_ne in Hk by exact Hne. eapply Hown, Hk.
  - pose proof (fresh_ne (heap w) Hsome) as Hfresh.
    cbv zeta. fin. repeat split.
    + apply lookup_insert_ne. exact Hfresh.
    + intros k fn Hk. simpl in Hk. destruct (decide (name = k)) as [<-|Hne].
      * rewrite lookup_insert_eq in Hk. inversion Hk. exact Hfresh.
      * rewrite lookup_insert_ne in Hk by exact Hne. eapply Hown, Hk.
    + intros b Hb.
      apply (registeredCells_register name _ b (obj w)) in Hb.
      destruct Hb as [->|Hb]; [exact Hfresh | apply Hreg, Hb].
    + intros fn Hfn. inversion Hfn. exact Hfresh.
  - fin. repeat split; try assumption. discriminate.
Qed.

Lemma onHeap_heap {A : Type} (m : M Heap A) (w : World) :
  heap (finalState (onHeap m w)) = finalState (m (heap w)).
Proof.
  unfold onHeap, finalState. destruct (m (heap w)) as [[r h] log]. reflexivity.
Qed.

Lemma perform_avoid (act : Action) (w : World) :
  is_Some (heap w !! a) -> cellsAvoid a (obj w) -> classAvoids a (proto (obj w)) ->
  heap (finalState (perform callEquals act w)) !! a = heap w !! a
  /\ cellsAvoid a (obj (finalState (perform callEquals act w))).
Proof.
  intros Hsome Havoid Hclass. split.
  - destruct act as [key|key args|key|]; unfold perform.
    + destruct (getProperty_avoid key w Hsome Havoid Hclass) as [Hheap _].
      unfold bind, ret. unfold finalState in *.
      destruct (getProperty key w) as [[[p|e] w1] log]; exact Hheap.
    + destruct (getProperty_avoid key w Hsome Havoid Hclass)
        as [Hheap [_ Hfn]].
      unfold callMethod, bind, getState. unfold finalState, outcome in *.
      destruct (getProperty key w) as [[[p|e] w1] log]; [|exact Hheap].
      simpl in *. destruct p as [v|fn]; [exact Hheap|].
      pose proof (onHeap_heap (callMemoized callEquals fn (self (obj w1)) args) w1)
        as Hh.
      unfold finalState in Hh.
      destruct (onHeap (callMemoized callEquals fn (self (obj w1)) args) w1)
        as [[r w2] log2].
      simpl in *. unfold callMemoized in Hh.
      destruct r; simpl; rewrite Hh;
        (etransitivity;
         [ apply (atCell_frame (cellAt fn) a);
           intros Heq; apply (Hfn fn eq_refl); congruence
         | exact Hheap ]).
    + destruct (getProperty_avoid key w Hsome Havoid Hclass)
        as [Hheap [_ Hfn]].
      unfold callClearMemo, bind. unfold finalState, outcome in *.
      destruct (getProperty key w) as [[[p|e] w1] log]; [|exact Hheap].
      simpl in *. destruct p as [v|fn]; [exact Hheap|].
      simpl. rewrite lookup_insert_ne; [exact Hheap|].
      apply (Hfn fn eq_refl).
    + unfold callClearAll, bind, getState. simpl.
      pose proof (onHeap_heap (clearAllMemoized (obj w)) w) as Hh.
      unfold finalState in *.
      destruct (onHeap (clearAllMemoized (obj w)) w) as [[r w2] log2].
      simpl in *. destruct r; simpl; rewrite Hh, clearAllMemoized_unfold;
        simpl; apply cleared_frame; intros Hin;
        apply (proj2 Havoid a Hin); reflexivity.
  - rewrite perform_obj.
    destruct act as [key|key args|key|];
      try apply (getProperty_avoid key w Hsome Havoid Hclass).
    exact Havoid.
Qed.

Lemma runActions_avoid (acts : list Action) :
  forall w,
    is_Some (heap w !! a) -> cellsAvoid a (obj w) ->
    classAvoids a (proto (obj w)) ->
    heap (fst (runActions callEquals acts w)) !! a = heap w !! a.
Proof.
  induction acts as [|act rest IH]; intros w Hsome Havoid Hclass;
    [reflexivity|].
  rewrite runActions_cons.
  destruct (perform_avoid act w Hsome Havoid Hclass) as [Hheap Havoid1].
  destruct (perform_proto_self callEquals act w) as [Hproto _].
  rewrite IH.
  - exact Hheap.
  - rewrite Hheap. exact Hsome.
  - exact Havoid1.
  - rewrite Hproto. exact Hclass.
Qed.

End Isolation.

(** X15.  Instances do not reach each other's cells: whatever a new instance
    does (any history of reads, calls and clears), a cell that existed before
    is left exactly as it was, unless it is the class-level cell of a stage 3
    method of its class.  The cells of the legacy memoized methods of other
    instances, and of earlier objects of the same class, are such cells. *)
Theorem X15_instances_isolated
    (ce : methodId -> Value -> Value -> Completion Value)
    (acts : list Action) (id : objId) (class : gmap string Decorated)
    (h : Heap) (a : nat) :
  is_Some (h !! a) ->
  (forall k fn, class !! k = Some (ReplacementMethod fn) -> cellAt fn <> a) ->
  heap (fst (runActions ce acts {| obj := newInstance id class; heap := h |}))
    !! a
  = h !! a.
Proof.
  intros Hsome Hclass.
  apply (runActions_avoid ce a acts
           {| obj := newInstance id class; heap := h |}).
  - exact Hsome.
  - split.
    + intros k fn Hk. simpl in Hk. rewrite lookup_empty in Hk. discriminate.
    + intros b [].
  - exact Hclass.
Qed.

Lemma X15_instances_isolated_witness :
  let wa := fst (runActions noEquals [CallMethod "m" [num 7]]
                   {| obj := newInstance 1 legacyClass; heap := ∅ |}) in
  heap (fst (runActions noEquals
               [CallMethod "m" [num 7]; ClearAll; CallMethod "n" [num 1]]
               {| obj := newInstance 2 legacyClass; heap := heap wa |})) !! 0
  = Some {| previousArgs := [num 7]; calledOnce := true;
            cachedResult := num 1 |}.
Proof.
  intros wa.
  rewrite (X15_instances_isolated noEquals
             [CallMethod "m" [num 7]; ClearAll; CallMethod "n" [num 1]]
             2 legacyClass (heap wa) 0).
  - vm_compute. reflexivity.
  - vm_compute. eexists. reflexivity.
  - intros k fn Hk. unfold legacyClass in Hk.
    repeat (apply lookup_insert_Some in Hk;
            destruct Hk as [[_ Hk]|[_ Hk]]; [discriminate|]).
    rewrite lookup_empty in Hk. discriminate.
Defined.

(** X16.  For an instance of a user class (or a function) that has an
    [equals] method, compared with a distinct object of the same [typeof],
    [deepEqual] at a positive depth is exactly the call [a.equals(b)]: the
    outcome is returned as it is, the fields of neither object are inspected,
    and an [equals] method of the second object is never consulted. *)
Theorem X16_deepEqual_delegates
    (ce : methodId -> Value -> Value -> Completion Value)
    (r r' : ref) (m : methodId) (m' : option methodId) (callable : bool)
    (fields : list (string * Value)) (shape : Shape) (depth : Z) :
  (0 < depth)%Z -> r <> r' ->
  let a := VObject r (Some m) (SOther callable fields) in
  let b := VObject r' m' shape in
  typeOf a = typeOf b ->
  deepEqual ce a b depth = ce m a b.
Proof.
  intros Hd Hr a b Htype. subst a b.
  apply Nat.eqb_neq in Hr.
  rewrite deepEqual_unfold by exact Hd.
  cbn [deepEqualAux]. destruct (Z.leb_spec depth 0); [lia|].
  simpl strictEquals. rewrite Hr.
  destruct callable, shape as [| | | | | |[|] fb]; try discriminate;
    reflexivity.
Qed.

Lemma X16_deepEqual_delegates_witness :
  deepEqual someEquals
    (VObject 1 (Some 2) (SOther false [("x"%string, num 1)]))
    (VObject 2 (Some 0) (SPlain [("x"%string, num 5)])) 1
  = Normal (VBoolean true).
Proof.
  apply (X16_deepEqual_delegates someEquals 1 2 2 (Some 0) false
           [("x"%string, num 1)] (SPlain [("x"%string, num 5)]) 1);
    [reflexivity | discriminate | reflexivity].
Defined.

(** ** Structurally identical data *)

Lemma everyFrom_true {A : Type} (f : A -> nat -> Completion Value) (d : A) xs :
  forall i,
    (forall j, j < length xs ->
               f (nth j xs d) (i + j) = Normal (VBoolean true)) ->
    everyFrom f i xs = Normal (VBoolean true).
Proof.
  induction xs as [|x rest IH]; intros i Hall; simpl; [reflexivity|].
  pose proof (Hall 0 ltac:(simpl; lia)) as H0.
  rewrite Nat.add_0_r in H0. simpl in H0. rewrite H0. simpl.
  apply IH. intros j Hj.
  replace (S i + j) with (i + S j) by lia. apply (Hall (S j)). simpl. lia.
Qed.

Lemma Forall2_nth_both {A B : Type} (R : A -> B -> Prop) (da : A) (db : B)
    xs ys :
  Forall2 R xs ys ->
  length xs = length ys
  /\ forall i, i < length xs -> R (nth i xs da) (nth i ys db).
Proof.
  induction 1 as [|x y xs ys Hxy Hrest [Hlen Hnth]]; simpl.
  - split; [reflexivity | intros i Hi; lia].
  - split; [congruence|]. intros [|i] Hi; [exact Hxy|].
    apply Hnth. lia.
Qed.

Lemma getField_nth (fields : list (string * Value)) (i : nat) :
  NoDup (map fst fields) -> i < length fields ->
  getField fields (nth i (map fst fields) EmptyString)
  = nth i (map snd fields) VUndefined.
Proof.
  revert i. induction fields as [|[k v] rest IH]; intros i Hnd Hi; simpl in *;
    [lia|].
  inversion Hnd as [|? ? Hnotin Hnd']. subst.
  destruct i as [|i].
  - rewrite String.eqb_refl. reflexivity.
  - destruct (String.eqb_spec k (nth i (map fst rest) EmptyString)) as [Heq|_].
    + exfalso. apply Hnotin. rewrite Heq. apply list_elem_of_In, nth_In.
      rewrite length_map. lia.
    + apply IH; [exact Hnd' | lia].
Qed.

Section AlikeFacts.

Variable callEquals : methodId -> Value -> Value -> Completion Value.

Lemma Alike_primitive_item (n : nat) (x y : Value) :
  Alike n x y -> isPrimitiveItem x = true ->
  strictEquals x y = true.
Proof.
  intros Halike Hprim.
  inversion Halike; subst; try discriminate.
  apply strictEquals_refl. assumption.
Qed.

Lemma deepEqual_Alike (n : nat) :
  forall a b depth,
    Alike n a b -> (Z.of_nat n < depth)%Z ->
    deepEqual callEquals a b depth = Normal (VBoolean true).
Proof.
  induction n as [|n IH]; intros a b depth Halike Hd;
    inversion Halike as [n0 p Hobj Hnan|n0 r m r' m' t Ht|n0 r m r' m' s
                        |n0 r m r' m' xs ys Hitems
                        |n0 r m r' m' fa fb Hnd Hkeys Hvals]; subst;
    try (rewrite deepEqual_primitive by (try lia; rewrite Hobj; reflexivity);
         rewrite strictEquals_refl by exact Hnan; reflexivity);
    try (rewrite deepEqual_unfold by lia; cbn [deepEqualAux];
         (destruct (Z.leb_spec depth 0); [lia|]); simpl;
         destruct (Nat.eqb r r'); [reflexivity|]; simpl;
         rewrite ?SFeqb_refl, ?String.eqb_refl by exact Ht; reflexivity).
  - (* arrays *)
    destruct (Forall2_nth_both _ VUndefined VUndefined _ _ Hitems)
      as [Hlen Hnth].
    rewrite deepEqual_unfold by lia. cbn [deepEqualAux].
    destruct (Z.leb_spec depth 0); [lia|]. simpl.
    destruct (Nat.eqb r r'); [reflexivity|]. simpl.
    rewrite Hlen, Nat.eqb_refl. simpl.
    destruct (forallb isPrimitiveItem xs) eqn:Hprim.
    + apply (everyFrom_true _ VUndefined). intros j Hj. simpl.
      unfold retBool. do 2 f_equal.
      apply (Alike_primitive_item n); [apply Hnth, Hj|].
      rewrite forallb_forall in Hprim. apply Hprim, nth_In, Hj.
    + apply (everyFrom_true _ VUndefined). intros j Hj. simpl.
      apply (IH _ _ (depth - 1)%Z); [apply Hnth, Hj | lia].
  - (* plain objects *)
    destruct (Forall2_nth_both _ VUndefined VUndefined _ _ Hvals)
      as [Hlen Hnth].
    rewrite !length_map in Hlen.
    rewrite deepEqual_unfold by lia. cbn [deepEqualAux].
    destruct (Z.leb_spec depth 0); [lia|]. simpl.
    destruct (Nat.eqb r r'); [reflexivity|]. simpl.
    rewrite !length_map, Hlen, Nat.eqb_refl. simpl.
    apply (everyFrom_true _ EmptyString). intros j Hj. simpl.
    rewrite length_map in Hj.
    rewrite (getField_nth fa j Hnd Hj).
    rewrite Hkeys. rewrite getField_nth; [|rewrite <- Hkeys; exact Hnd|lia].
    apply (IH _ _ (depth - 1)%Z); [|lia].
    apply Hnth. rewrite length_map. exact Hj.
Qed.

End AlikeFacts.

(** X17.  Structurally identical data are equal: two values built alike from
    non-[NaN] primitives, valid dates, regular expressions, arrays and plain
    objects (with the same distinct keys in the same order), nested at most
    [n] deep, are found equal at every depth above [n], although they are
    distinct objects and whatever [equals] methods they carry. *)
Theorem X17_deepEqual_alike
    (ce : methodId -> Value -> Value -> Completion Value)
    (n : nat) (a b : Value) (depth : Z) :
  Alike n a b -> (Z.of_nat n < depth)%Z ->
  deepEqual ce a b depth = Normal (VBoolean true).
Proof. apply deepEqual_Alike. Qed.

Lemma X17_deepEqual_alike_witness :
  let build := fun r =>
    VObject r None
      (SPlain [("a"%string, num 1);
               ("b"%string,
                VObject (r + 1) None
                  (SPlain [("c"%string,
                            VObject (r + 2) None
                              (SArray [num 1; num 2; num 3]))]))]) in
  deepEqual someEquals (build 10) (build 20) 4 = Normal (VBoolean true).
Proof.
  intros build.
  apply (X17_deepEqual_alike someEquals 3 (build 10) (build 20) 4);
    try reflexivity.
  assert (forall z, Alike 0 (num (Z.pos z)) (num (Z.pos z))) as Hnum
    by (intros z; apply AlikePrimitive; reflexivity).
  apply AlikePlain.
  - apply NoDup_cons. split; [|apply NoDup_singleton].
    intros Hin. apply list_elem_of_singleton in Hin. discriminate.
  - reflexivity.
  - constructor; [apply AlikePrimitive; reflexivity|].
    constructor; [|constructor].
    apply AlikePlain.
    + apply NoDup_singleton.
    + reflexivity.
    + constructor; [|constructor].
      apply AlikeArray.
      repeat (constructor; [apply Hnum|]). constructor.
Defined.

(** X18.  Structurally identical arguments are a hit: on a cell that has
    run, a call whose arguments are, position by position, structurally
    identical to the stored ones (nested less than 100 deep) returns the
    stored result, invokes nothing and leaves the cell as it is, although the
    arguments are distinct objects. *)
Theorem X18_memoizedFn_alike_arguments_hit
    (ce : methodId -> Value -> Value -> Completion Value)
    (originalMethod : Method) (this : objId) (args : list Value) (c : Cell)
    (n : nat) :
  calledOnce c = true ->
  Forall2 (Alike n) args (previousArgs c) ->
  n < 100 ->
  memoizedFn ce originalMethod this args c = (Normal (cachedResult c), c, []).
Proof.
  intros Hrun Halike Hn.
  destruct (Forall2_nth_both _ VUndefined VUndefined _ _ Halike)
    as [Hlen Hnth].
  assert (holds (isSame ce c args)) as [v [Hv Ht]].
  { apply isSame_holds. repeat split; try assumption.
    intros i Hi.
    rewrite (deepEqual_Alike ce n); [apply holds_boolean; reflexivity| |].
    - apply Hnth, Hi.
    - unfold defaultDepth. lia. }
  rewrite memoizedFn_unfold, Hv, Ht. reflexivity.
Qed.

Lemma X18_memoizedFn_alike_arguments_hit_witness :
  let stored := VObject 1 None (SPlain [("a"%string, num 1)]) in
  let again := VObject 2 (Some 0) (SPlain [("a"%string, num 1)]) in
  let c := {| previousArgs := [stored; num 5]; calledOnce := true;
              cachedResult := num 10 |} in
  memoizedFn someEquals whoAmI 7 [again; num 5] c = (Normal (num 10), c, []).
Proof.
  intros stored again c.
  apply (X18_memoizedFn_alike_arguments_hit someEquals whoAmI 7
           [again; num 5] c 1).
  - reflexivity.
  - constructor; [|constructor; [|constructor]].
    + apply AlikePlain.
      * apply NoDup_singleton.
      * reflexivity.
      * constructor; [apply AlikePrimitive; reflexivity|].
        constructor.
    + apply AlikePrimitive; reflexivity.
  - lia.
Defined.
